(** * mypy/server/mergecheck.py: duplicate AST nodes after a merge

    A shallow embedding of [check_consistency] and [path_to_str], together
    with the object-graph walker of [mypy.server.objgraph] they are built on,
    and the properties of the design document proved about them. *)

From Stdlib Require Import ZArith String Ascii List DecimalString.
From stdpp Require Import base decidable option list gmap strings fin_maps.

Local Open Scope Z_scope.
Local Open Scope string_scope.
Local Open Scope list_scope.

(** ** Python values used by the module *)

Module Py.

(** Strings are sequences of code points below 256; [repr] of a [str]
    follows CPython's [unicode_repr] on that range. *)

Definition hex_digit (n : N) : ascii :=
  match n with
  | 0%N => "0" | 1%N => "1" | 2%N => "2" | 3%N => "3"
  | 4%N => "4" | 5%N => "5" | 6%N => "6" | 7%N => "7"
  | 8%N => "8" | 9%N => "9" | 10%N => "a" | 11%N => "b"
  | 12%N => "c" | 13%N => "d" | 14%N => "e" | _ => "f"
  end%char.

Definition backslash : ascii := "\"%char.
Definition squote : ascii := "'"%char.
Definition dquote : ascii := ascii_of_nat 34.
Definition newline : ascii := ascii_of_nat 10.

Fixpoint contains_char (c : ascii) (s : string) : bool :=
  match s with
  | EmptyString => false
  | String a s' => if Ascii.eqb a c then true else contains_char c s'
  end.

(** The quote [repr] wraps a string in: a double quote only when the
    string has a single quote and no double quote. *)
Definition repr_quote (s : string) : ascii :=
  if contains_char squote s && negb (contains_char dquote s)
  then dquote else squote.

(** Code points that [repr] copies unchanged (Py_UNICODE_ISPRINTABLE on
    the Latin-1 range, the quote and the backslash apart). *)
Definition printable (c : ascii) : bool :=
  let n := N_of_ascii c in
  ((32 <=? n) && (n <? 127) || (161 <=? n) && negb (n =? 173))%N.

Definition repr_char (q c : ascii) : string :=
  if Ascii.eqb c q || Ascii.eqb c backslash then String backslash (String c "")
  else if Ascii.eqb c (ascii_of_nat 9) then String backslash "t"
  else if Ascii.eqb c (ascii_of_nat 10) then String backslash "n"
  else if Ascii.eqb c (ascii_of_nat 13) then String backslash "r"
  else if printable c then String c ""
  else
    let n := N_of_ascii c in
    String backslash
      (String "x" (String (hex_digit (n / 16)) (String (hex_digit (n mod 16)) ""))).

Fixpoint repr_body (q : ascii) (s : string) : string :=
  match s with
  | EmptyString => ""
  | String c s' => repr_char q c +:+ repr_body q s'
  end.

(** [repr(s)] for a [str]. *)
Definition repr_str (s : string) : string :=
  let q := repr_quote s in
  String q (repr_body q s +:+ String q "").

(** [str(n)], [repr(n)] and ["%d" % n] for an [int]. *)
Definition str_int (z : Z) : string :=
  DecimalString.NilZero.string_of_int (Z.to_int z).

(** Edge labels produced by the walker: attribute names and string keys,
    sequence indices, and pairs such as [(attr, "__closure__")]. *)
Inductive label : Type :=
| LStr (s : string)
| LInt (i : Z)
| LPair (a b : label).

Fixpoint repr (l : label) : string :=
  match l with
  | LStr s => repr_str s
  | LInt i => str_int i
  | LPair a b => "(" +:+ repr a +:+ ", " +:+ repr b +:+ ")"
  end.

(** What an f-string field [{attr}] inserts: [format(attr, "")], that is
    [str(attr)]. *)
Definition str (l : label) : string :=
  match l with
  | LStr s => s
  | _ => repr l
  end.

#[global] Instance label_eq_dec : EqDecision label.
Proof. solve_decision. Defined.

End Py.

(** ** Objects, classes and the heap *)

(** Modelled from the spec: the class declarations of [mypy.nodes] and of the
    build managers are not under src/. The classes below are the ones
    [mergecheck] tests for, the other kinds of name-bearing entity of the
    compiler, the container and manager kinds the path renderer recognises,
    and [T_other] for every class that is not a [SymbolNode]. *)
Inductive pytype : Type :=
| T_dict | T_tuple | T_list | T_SymbolTable
| T_BuildManager | T_FineGrainedBuildManager
| T_MypyFile | T_Var | T_FuncDef | T_OverloadedFuncDef | T_Decorator
| T_TypeInfo | T_FakeInfo | T_TypeAlias | T_TypeVarExpr | T_PlaceholderNode
| T_other (cls_name : string).

#[global] Instance pytype_eq_dec : EqDecision pytype.
Proof. solve_decision. Defined.

(** [cls.__name__] *)
Definition type_name (t : pytype) : string :=
  match t with
  | T_dict => "dict" | T_tuple => "tuple" | T_list => "list"
  | T_SymbolTable => "SymbolTable"
  | T_BuildManager => "BuildManager"
  | T_FineGrainedBuildManager => "FineGrainedBuildManager"
  | T_MypyFile => "MypyFile" | T_Var => "Var" | T_FuncDef => "FuncDef"
  | T_OverloadedFuncDef => "OverloadedFuncDef" | T_Decorator => "Decorator"
  | T_TypeInfo => "TypeInfo" | T_FakeInfo => "FakeInfo"
  | T_TypeAlias => "TypeAlias" | T_TypeVarExpr => "TypeVarExpr"
  | T_PlaceholderNode => "PlaceholderNode"
  | T_other n => n
  end.

(** The classes a test [isinstance(x, C)] is made against. *)
Inductive pyclass : Type := SymbolNode | FakeInfo | Var | Decorator | FuncDef.

(** [issubclass(t, c)]: [FakeInfo] derives from [TypeInfo]; every class from
    [T_MypyFile] to [T_PlaceholderNode] derives from [SymbolNode]. *)
Definition issubclass (t : pytype) (c : pyclass) : bool :=
  match c, t with
  | SymbolNode, (T_MypyFile | T_Var | T_FuncDef | T_OverloadedFuncDef
                | T_Decorator | T_TypeInfo | T_FakeInfo | T_TypeAlias
                | T_TypeVarExpr | T_PlaceholderNode) => true
  | FakeInfo, T_FakeInfo => true
  | Var, T_Var => true
  | Decorator, T_Decorator => true
  | FuncDef, T_FuncDef => true
  | _, _ => false
  end.

(** An object: its identity [id(o)], its class [type(o)], the attributes the
    module reads ([fullname], [name], [is_overload]; the value is unused on
    objects of a class that lacks the attribute), its rendering [str(o)], and
    its structural members: the labelled references the walker follows. *)
Record obj : Type := mkObj {
  obj_id : Z;
  obj_type : pytype;
  fullname : option string;
  name : string;
  is_overload : bool;
  obj_str : string;
  members : list (Py.label * Z)
}.

#[global] Instance obj_eq_dec : EqDecision obj.
Proof. solve_decision. Defined.

Definition isinstance (o : obj) (c : pyclass) : bool := issubclass (obj_type o) c.

(** The live objects. A reference is the identity of its target. *)
Definition heap : Type := list obj.

Definition deref (h : heap) (r : Z) : option obj :=
  List.find (fun o => Z.eqb (obj_id o) r) h.

(** ** Output and exceptions *)

(** A computation that may print and may raise: it maps the text printed so
    far (one string per [print] call) to its outcome and the text printed
    when it stops. *)
Inductive exn : Type := AssertionError.

Inductive outcome (A : Type) : Type :=
| Normal (a : A)
| Raised (e : exn).
Arguments Normal {A} a.
Arguments Raised {A} e.

Definition M (A : Type) : Type := list string -> outcome A * list string.

Definition ret {A} (a : A) : M A := fun out => (Normal a, out).

Definition bind {A B} (c : M A) (k : A -> M B) : M B :=
  fun out =>
    match c out with
    | (Normal a, out') => k a out'
    | (Raised e, out') => (Raised e, out')
    end.

Definition print (s : string) : M unit := fun out => (Normal tt, out ++ [s]).

Definition assert (b : bool) : M unit :=
  fun out => if b then (Normal tt, out) else (Raised AssertionError, out).

Definition when (b : bool) (c : M unit) : M unit := if b then c else ret tt.

Notation "'let!' x ':=' c 'in' k" := (bind c (fun x => k))
  (at level 10, x name, c at level 100, k at level 200).
Notation "c ';;' k" := (bind c (fun _ => k))
  (at level 100, k at level 200, right associativity).

(** [for x in xs: m = body(m, x)] *)
Fixpoint for_each {A S} (body : S -> A -> M S) (xs : list A) (s : S) : M S :=
  match xs with
  | [] => ret s
  | x :: xs' => let! s' := body s x in for_each body xs' s'
  end.

(** ** Insertion-ordered dictionaries keyed by identity *)

(** A Python [dict] whose iteration order is observed ([seen.values()]):
    an association list in insertion order, without repeated keys. *)
Module Dict.

Definition t (V : Type) : Type := list (Z * V).

Definition has {V} (d : t V) (k : Z) : bool :=
  existsb (fun p => Z.eqb (fst p) k) d.

Definition get {V} (d : t V) (k : Z) : option V :=
  snd <$> List.find (fun p => Z.eqb (fst p) k) d.

(** [d[k] = v]: a present key keeps its position, a new one goes last. *)
Fixpoint set {V} (d : t V) (k : Z) (v : V) : t V :=
  match d with
  | [] => [(k, v)]
  | (k', v') :: d' => if Z.eqb k' k then (k, v) :: d' else (k', v') :: set d' k v
  end.

Definition keys {V} (d : t V) : list Z := map fst d.
Definition values {V} (d : t V) : list V := map snd d.

End Dict.

(** ** The graph walker ([mypy.server.objgraph]) *)

Module Objgraph.

(** Modelled from the spec: [get_edges] of [mypy/server/objgraph.py] is not
    under src/. The structural members of an object are enumerated as
    (label, value) pairs; a member that cannot be resolved to a live object
    is skipped. *)
Definition get_edges (h : heap) (o : obj) : list (Py.label * obj) :=
  omap (fun '(s, r) => match deref h r with
                       | Some e => Some (s, e)
                       | None => None
                       end) (members o).

(** The traversal state: the Node map [seen], the Edge map [parents] and
    the work list (a stack: the head is the object popped next). *)
Record state : Type := mkState {
  seen : Dict.t obj;
  parents : gmap Z (Z * Py.label);
  worklist : list obj
}.

(** One edge [(s, e)] out of [o]: an identity already in [seen] is not
    entered again; a new one is recorded with its first-discovered edge
    and pushed. *)
Definition visit (o : obj) (st : state) (edge : Py.label * obj) : state :=
  let '(s, e) := edge in
  if Dict.has (seen st) (obj_id e) then st
  else {| seen := Dict.set (seen st) (obj_id e) e;
          parents := <[obj_id e := (obj_id o, s)]> (parents st);
          worklist := e :: worklist st |}.

(** One turn of the outer loop: pop an object and visit its edges. *)
Definition pop_and_visit (h : heap) (st : state) : option state :=
  match worklist st with
  | [] => None
  | o :: wl =>
      Some (fold_left (visit o) (get_edges h o)
              {| seen := seen st; parents := parents st; worklist := wl |})
  end.

(** [while worklist: ...], at most [fuel] turns. *)
Fixpoint walk (fuel : nat) (h : heap) (st : state) : state :=
  match fuel with
  | O => st
  | S n => match pop_and_visit h st with
           | None => st
           | Some st' => walk n h st'
           end
  end.

Definition init (root : obj) : state :=
  {| seen := [(obj_id root, root)]; parents := ∅; worklist := [root] |}.

(** Modelled from the spec: [get_reachable_graph] of
    [mypy/server/objgraph.py] is not under src/. Every turn of the loop
    removes one object that entered [seen] once, so one turn per live
    object and one for the root are enough ([walk_terminates]). *)
Definition get_reachable_graph (h : heap) (root : obj)
  : Dict.t obj * gmap Z (Z * Py.label) :=
  let st := walk (S (length h)) h (init root) in
  (seen st, parents st).

Fixpoint path_up (fuel : nat) (o : obj) (seen : Dict.t obj)
    (parents : gmap Z (Z * Py.label)) : list (Py.label * obj) :=
  match fuel with
  | O => []
  | S n =>
      match parents !! obj_id o with
      | None => []
      | Some (pid, attr) =>
          match Dict.get seen pid with
          | None => []
          | Some p => (attr, p) :: path_up n p seen parents
          end
      end
  end.

(** Modelled from the spec: [get_path] of [mypy/server/objgraph.py] is not
    under src/. The Edge map is followed from the object up to a Node with
    no recorded edge, a step (label, parent) is collected for each edge,
    and the steps are reversed into root-to-target order; the number of
    steps is bounded by the size of the Node map. *)
Definition get_path (o : obj) (seen : Dict.t obj)
    (parents : gmap Z (Z * Py.label)) : list (Py.label * obj) :=
  rev (path_up (length seen) o seen parents).

(** What the graph rooted at [root] contains: the root and every object a
    chain of edges leads to. *)
Inductive reach (h : heap) (root : obj) : obj -> Prop :=
| reach_root : reach h root root
| reach_edge o s e :
    reach h root o -> (s, e) ∈ get_edges h o -> reach h root e.

End Objgraph.

(** ** mypy/server/mergecheck.py *)

Module Mergecheck.
Import Objgraph.

(** If True, print more verbose output on failure. *)
Definition DUMP_MISMATCH_NODES : bool := false.

(** [t in (...)] on class names. *)
Definition name_in (t : string) (names : list string) : bool :=
  existsb (String.eqb t) names.

(** The body of the loop of [path_to_str]: [result] after one step. *)
Definition render_step (result : string) (step : Py.label * obj) : string :=
  let '(attr, o) := step in
  let t := type_name (obj_type o) in
  if name_in t ["dict"; "tuple"; "SymbolTable"; "list"] then
    result +:+ "[" +:+ Py.repr attr +:+ "]"
  else if isinstance o Var then
    result +:+ "." +:+ Py.str attr +:+ "(" +:+ t +:+ ":" +:+ name o +:+ ")"
  else if name_in t ["BuildManager"; "FineGrainedBuildManager"] then
    result +:+ "." +:+ Py.str attr
  else
    result +:+ "." +:+ Py.str attr +:+ "(" +:+ t +:+ ")".

Definition path_to_str (path : list (Py.label * obj)) : string :=
  fold_left render_step path "<root>".

(** [fn in m] *)
Definition contains (m : gmap string obj) (fn : string) : bool :=
  bool_decide (is_Some (m !! fn)).

Definition duplicate_header (sym : obj) (fn : string) : string :=
  String Py.newline "Duplicate " +:+ Py.repr_str (type_name (obj_type sym))
    +:+ " nodes with fullname " +:+ Py.repr_str fn +:+ " found:".

Definition duplicate_line (tag : string) (sym : obj)
    (path : list (Py.label * obj)) : string :=
  tag +:+ " " +:+ Py.str_int (obj_id sym) +:+ ": " +:+ path_to_str path.

Definition dump_line (sym : obj) : string :=
  Py.str_int (obj_id sym) +:+ " " +:+ obj_str sym.

(** The body of the loop of [check_consistency], from the grouping map [m]
    before [sym] to the map after it; [continue] returns the map. *)
Definition check_sym (seen : Dict.t obj) (parents : gmap Z (Z * Py.label))
    (m : gmap string obj) (sym : obj) : M (gmap string obj) :=
  if isinstance sym FakeInfo then ret m
  else
    match fullname sym with
    | None => assert false;; ret m
    | Some fn =>
        if isinstance sym Var || isinstance sym Decorator then ret m
        else if isinstance sym FuncDef && is_overload sym then ret m
        else
          match m !! fn with
          | None => ret (<[fn := sym]> m)
          | Some in_m =>
              let sym1 := sym in
              let sym2 := in_m in
              if negb (bool_decide (obj_type sym1 = obj_type sym2)) then ret m
              else
                let path1 := get_path sym1 seen parents in
                let path2 := get_path sym2 seen parents in
                when (contains m fn)
                  (print (duplicate_header sym fn);;
                   print (duplicate_line "[1]" sym1 path1);;
                   print (duplicate_line "[2]" sym2 path2));;
                when (DUMP_MISMATCH_NODES && contains m fn)
                  (print "---";; print (dump_line sym1);;
                   print "---";; print (dump_line sym2));;
                assert (negb (contains m fn));;
                ret m
          end
    end.

(** The loop over [syms], from the empty grouping map. *)
Definition check_syms (seen : Dict.t obj) (parents : gmap Z (Z * Py.label))
    (syms : list obj) : M (gmap string obj) :=
  for_each (check_sym seen parents) syms ∅.

(** [reachable] and [syms] as [check_consistency] computes them. *)
Definition reachable (h : heap) (o : obj) : list obj :=
  Dict.values (fst (get_reachable_graph h o)).

Definition symbol_nodes (h : heap) (o : obj) : list obj :=
  List.filter (fun x => isinstance x SymbolNode) (reachable h o).

Definition check_consistency (h : heap) (o : obj) : M unit :=
  let '(seen, parents) := get_reachable_graph h o in
  let reachable := Dict.values seen in
  let syms := List.filter (fun x => isinstance x SymbolNode) reachable in
  check_syms seen parents syms;; ret tt.

End Mergecheck.


(** ** Vocabulary of the design document *)

Module Design.
Import Objgraph Mergecheck.

(** The three exclusion rules: variable-like entities, decorator wrappers
    and overload variants. *)
Definition exempt (sym : obj) : bool :=
  isinstance sym Var || isinstance sym Decorator
  || isinstance sym FuncDef && is_overload sym.

(** An entity the loop groups by name: neither a [FakeInfo] nor exempt. *)
Definition checked (sym : obj) : bool :=
  negb (isinstance sym FakeInfo) && negb (exempt sym).

Definition checked_named (fn : string) (sym : obj) : bool :=
  checked sym && bool_decide (fullname sym = Some fn).

(** The first grouped entity with name [fn] among [pre]. *)
Definition first_seen (fn : string) (pre : list obj) : option obj :=
  List.find (checked_named fn) pre.

(** The two fatal conditions, at the entity [sym] met after [pre]: a name
    is absent, or the first-seen entity of that name has the same kind. *)
Definition violates (pre : list obj) (sym : obj) : Prop :=
  isinstance sym FakeInfo = false ∧
  (fullname sym = None ∨
   ∃ fn e1, fullname sym = Some fn ∧ checked sym = true ∧
            first_seen fn pre = Some e1 ∧ obj_type sym = obj_type e1).

Definition violation (syms : list obj) : Prop :=
  ∃ pre sym post, syms = pre ++ sym :: post ∧ violates pre sym.

(** [s] occurs in [t]. *)
Definition substring (s t : string) : Prop := ∃ a b, t = a +:+ s +:+ b.

(** A name [repr] only wraps in single quotes. *)
Fixpoint plain_name (s : string) : bool :=
  match s with
  | EmptyString => true
  | String c s' =>
      Py.printable c && negb (Ascii.eqb c Py.squote)
      && negb (Ascii.eqb c Py.backslash) && plain_name s'
  end.

Definition join (frags : list string) : string := fold_right String.app "" frags.

(** The rendering of one step, case by case. *)
Inductive renders_as : Py.label * obj -> string -> Prop :=
| render_container attr o :
    type_name (obj_type o) ∈ ["dict"; "tuple"; "SymbolTable"; "list"] ->
    renders_as (attr, o) ("[" +:+ Py.repr attr +:+ "]")
| render_var attr o :
    isinstance o Var = true ->
    renders_as (attr, o)
      ("." +:+ Py.str attr +:+ "(" +:+ type_name (obj_type o) +:+ ":" +:+ name o +:+ ")")
| render_manager attr o :
    type_name (obj_type o) ∈ ["BuildManager"; "FineGrainedBuildManager"] ->
    renders_as (attr, o) ("." +:+ Py.str attr)
| render_other attr o :
    type_name (obj_type o) ∉ ["dict"; "tuple"; "SymbolTable"; "list"] ->
    isinstance o Var = false ->
    type_name (obj_type o) ∉ ["BuildManager"; "FineGrainedBuildManager"] ->
    renders_as (attr, o)
      ("." +:+ Py.str attr +:+ "(" +:+ type_name (obj_type o) +:+ ")").

(** A same-kind, same-name pair of entities outside the three exclusion
    rules always fails the check and the report shows the name. *)
Definition duplicates_always_reported (h : heap) (root : obj) : Prop :=
  ∀ e1 e2 fn,
    e1 ∈ reachable h root -> e2 ∈ reachable h root -> obj_id e1 ≠ obj_id e2 ->
    isinstance e1 SymbolNode = true -> isinstance e2 SymbolNode = true ->
    obj_type e1 = obj_type e2 ->
    fullname e1 = Some fn -> fullname e2 = Some fn ->
    exempt e1 = false -> exempt e2 = false ->
    ∃ out, check_consistency h root [] = (Raised AssertionError, out)
           ∧ ∃ line, line ∈ out ∧ substring fn line.

(** Every reachable [SymbolNode] without a name fails the check. *)
Definition absent_name_always_fatal (h : heap) (root : obj) : Prop :=
  ∀ e, e ∈ reachable h root -> isinstance e SymbolNode = true ->
       fullname e = None ->
       ∃ out, check_consistency h root [] = (Raised AssertionError, out).

(** Only exempt entities share a name: two different entities that carry the
    same fully-qualified name [fn] are both exempt. Entities without a name
    share none. *)
Definition only_exempt_share (syms : list obj) : Prop :=
  ∀ e1 e2 fn, e1 ∈ syms -> e2 ∈ syms -> obj_id e1 ≠ obj_id e2 ->
              fullname e1 = Some fn -> fullname e2 = Some fn ->
              exempt e1 = true ∧ exempt e2 = true.

(** Name sharing among exempt entities alone lets the check complete. *)
Definition exempt_sharing_never_fails (h : heap) (root : obj) : Prop :=
  only_exempt_share (symbol_nodes h root) ->
  ∃ out, check_consistency h root [] = (Normal tt, out).

(** No pair of reachable SymbolNodes that share a name and differ in
    concrete kind ever comes with a failure of the check. *)
Definition kind_change_never_fails (h : heap) (root : obj) : Prop :=
  ∀ e1 e2 fn,
    e1 ∈ reachable h root -> e2 ∈ reachable h root ->
    isinstance e1 SymbolNode = true -> isinstance e2 SymbolNode = true ->
    fullname e1 = Some fn -> fullname e2 = Some fn ->
    obj_type e1 ≠ obj_type e2 ->
    ∀ out, check_consistency h root [] ≠ (Raised AssertionError, out).

End Design.

(** ** Sample graphs *)

Module Graphs.

Definition node (i : Z) (t : pytype) (fn : option string)
    (refs : list (Py.label * Z)) : obj :=
  {| obj_id := i; obj_type := t; fullname := fn; name := ""; is_overload := false;
     obj_str := ""; members := refs |}.

Definition overload_variant (i : Z) (fn : string) : obj :=
  {| obj_id := i; obj_type := T_FuncDef; fullname := Some fn; name := "f";
     is_overload := true; obj_str := ""; members := [] |}.

Definition items (ids : list Z) : list (Py.label * Z) :=
  imap (fun i r => (Py.LInt (Z.of_nat i), r)) ids.

(** A module and a class that refer to each other. *)
Definition cyc_A : obj := node 1 T_MypyFile (Some "pkg") [(Py.LStr "defs", 2)].
Definition cyc_B : obj := node 2 T_TypeInfo (Some "pkg.B") [(Py.LStr "module", 1)].
Definition cyc_heap : heap := [cyc_A; cyc_B].

(** A build manager whose module table holds two classes of one name; the
    first one points back to the manager. *)
Definition dup_root : obj := node 1 T_BuildManager None [(Py.LStr "modules", 2)].
Definition dup_table : obj :=
  node 2 T_dict None [(Py.LStr "pkg", 3); (Py.LStr "other", 4)].
Definition dup_first : obj :=
  node 3 T_TypeInfo (Some "pkg.mod.Foo") [(Py.LStr "manager", 1)].
Definition dup_second : obj := node 4 T_TypeInfo (Some "pkg.mod.Foo") [].
Definition dup_heap : heap := [dup_root; dup_table; dup_first; dup_second].

(** An alias followed by two classes, all of one name. *)
Definition masked_root : obj := node 1 T_list None (items [2; 3; 4]).
Definition masked_alias : obj := node 2 T_TypeAlias (Some "pkg.mod.Foo") [].
Definition masked_info1 : obj := node 3 T_TypeInfo (Some "pkg.mod.Foo") [].
Definition masked_info2 : obj := node 4 T_TypeInfo (Some "pkg.mod.Foo") [].
Definition masked_heap : heap :=
  [masked_root; masked_alias; masked_info1; masked_info2].

(** A class, then an alias, then a class again, all of one name. *)
Definition third_root : obj := node 1 T_list None (items [2; 3; 4]).
Definition third_info1 : obj := node 2 T_TypeInfo (Some "pkg.mod.Foo") [].
Definition third_alias : obj := node 3 T_TypeAlias (Some "pkg.mod.Foo") [].
Definition third_info2 : obj := node 4 T_TypeInfo (Some "pkg.mod.Foo") [].
Definition third_heap : heap := [third_root; third_info1; third_alias; third_info2].

(** A class and an alias of one name. *)
Definition kind_root : obj := node 1 T_list None (items [2; 3]).
Definition kind_info : obj := node 2 T_TypeInfo (Some "pkg.mod.Foo") [].
Definition kind_alias : obj := node 3 T_TypeAlias (Some "pkg.mod.Foo") [].
Definition kind_heap : heap := [kind_root; kind_info; kind_alias].

(** A module with a class and a function, all names different. *)
Definition ok_root : obj :=
  node 1 T_MypyFile (Some "pkg.mod") [(Py.LStr "names", 2)].
Definition ok_table : obj :=
  node 2 T_SymbolTable None [(Py.LStr "Foo", 3); (Py.LStr "f", 4)].
Definition ok_info : obj := node 3 T_TypeInfo (Some "pkg.mod.Foo") [].
Definition ok_func : obj := node 4 T_FuncDef (Some "pkg.mod.f") [].
Definition ok_heap : heap := [ok_root; ok_table; ok_info; ok_func].

(** Two variables, two decorators and two overload variants sharing names. *)
Definition exempt_root : obj := node 1 T_list None (items [2; 3; 4; 5; 6; 7]).
Definition exempt_heap : heap :=
  [exempt_root;
   node 2 T_Var (Some "pkg.x") []; node 3 T_Var (Some "pkg.x") [];
   node 4 T_Decorator (Some "pkg.f") []; node 5 T_Decorator (Some "pkg.f") [];
   overload_variant 6 "pkg.g"; overload_variant 7 "pkg.g"].

(** Two variables of one name and a variable without a name. *)
Definition unnamed_root : obj := node 1 T_list None (items [2; 3; 4]).
Definition unnamed_var : obj := node 4 T_Var None [].
Definition unnamed_heap : heap :=
  [unnamed_root; node 2 T_Var (Some "pkg.x") []; node 3 T_Var (Some "pkg.x") [];
   unnamed_var].

(** A module without a name next to a well-formed class. *)
Definition absent_root : obj := node 1 T_list None (items [2; 3]).
Definition absent_file : obj := node 3 T_MypyFile None [].
Definition absent_heap : heap :=
  [absent_root; node 2 T_TypeInfo (Some "pkg.mod.Foo") []; absent_file].

(** A [FakeInfo] without a name, alone. *)
Definition lone_fake : obj := node 1 T_FakeInfo None [].
Definition lone_heap : heap := [lone_fake].

(** A [FakeInfo] between two entities, sharing the name of the first. *)
Definition fake_root : obj := node 1 T_list None (items [2; 3; 4]).
Definition fake_class : obj := node 2 T_TypeInfo (Some "pkg.mod.Foo") [].
Definition fake_info : obj := node 3 T_FakeInfo (Some "pkg.mod.Foo") [].
Definition fake_func : obj := node 4 T_FuncDef (Some "pkg.mod.f") [].
Definition fake_heap : heap := [fake_root; fake_class; fake_info; fake_func].

(** A path through a manager, a table, a variable and a plain node. *)
Definition sample_var : obj :=
  {| obj_id := 7; obj_type := T_Var; fullname := Some "pkg.x"; name := "x";
     is_overload := false; obj_str := ""; members := [] |}.
Definition sample_path : list (Py.label * obj) :=
  [(Py.LStr "modules", dup_root); (Py.LStr "pkg", dup_table);
   (Py.LStr "node", sample_var); (Py.LStr "info", dup_first);
   (Py.LInt 0, masked_root)].

End Graphs.

(** ** Invariant of the traversal *)

Module Invariants.
Import Objgraph.

(** What holds of the traversal state before every turn of the loop. *)
Record inv (h : heap) (root : obj) (st : state) : Prop := {
  inv_nodup : NoDup (Dict.keys (seen st));
  inv_ids : ∀ i o, (i, o) ∈ seen st -> obj_id o = i;
  inv_root : (obj_id root, root) ∈ seen st;
  inv_live : ∀ i o, (i, o) ∈ seen st -> o = root ∨ deref h i = Some o;
  inv_len : (length (worklist st) <= length (seen st))%nat;
  inv_closed : ∀ i o, (i, o) ∈ seen st ->
      o ∈ worklist st ∨
      ∀ s e, (s, e) ∈ get_edges h o -> Dict.has (seen st) (obj_id e) = true
}.

(** How the state after visiting the edges [es] relates to the one before. *)
Record grows (es : list (Py.label * obj)) (st st' : state) : Prop := {
  grows_seen : ∀ p, p ∈ seen st -> p ∈ seen st';
  grows_work : ∀ x, x ∈ worklist st -> x ∈ worklist st';
  grows_edges : ∀ s e, (s, e) ∈ es -> Dict.has (seen st') (obj_id e) = true;
  grows_new : ∀ i x, (i, x) ∈ seen st' ->
      (i, x) ∈ seen st ∨ (x ∈ worklist st' ∧ i = obj_id x ∧ ∃ s, (s, x) ∈ es);
  grows_nodup : NoDup (Dict.keys (seen st)) -> NoDup (Dict.keys (seen st'));
  grows_len : (length (seen st') + length (worklist st)
               = length (seen st) + length (worklist st'))%nat
}.

End Invariants.

(** ** Reports, edge-map invariant and reconstructed paths *)

Module Reports.
Import Objgraph Mergecheck Design.

(** The three lines printed at a collision of [sym] with the first-seen
    entity [first]. *)
Definition report (nodes : Dict.t obj) (edges : gmap Z (Z * Py.label))
    (sym first : obj) (fn : string) : list string :=
  [duplicate_header sym fn;
   duplicate_line "[1]" sym (get_path sym nodes edges);
   duplicate_line "[2]" first (get_path first nodes edges)].

(** Why a run of the loop over [syms] stopped at [sym], met after [pre], and
    what it printed: nothing for an absent name, the report for a collision
    with the first-seen entity of the same kind. *)
Definition stops_at (nodes : Dict.t obj) (edges : gmap Z (Z * Py.label))
    (pre : list obj) (sym : obj) (printed : list string) : Prop :=
  isinstance sym FakeInfo = false ∧
  ((fullname sym = None ∧ printed = []) ∨
   ∃ fn e1, fullname sym = Some fn ∧ exempt sym = false ∧
            first_seen fn pre = Some e1 ∧ e1 ∈ pre ∧
            exempt e1 = false ∧ isinstance e1 FakeInfo = false ∧
            fullname e1 = Some fn ∧ obj_type sym = obj_type e1 ∧
            printed = report nodes edges sym e1 fn).

(** [k] is entered in the key list before [k']. *)
Definition before (ks : list Z) (k k' : Z) : Prop :=
  ∃ n n', ks !! n = Some k ∧ ks !! n' = Some k' ∧ (n < n')%nat.

(** What the traversal keeps true of the Edge map. *)
Record edges_inv (h : heap) (root : obj) (st : state) : Prop := {
  ei_reach : ∀ i x, (i, x) ∈ seen st -> reach h root x;
  ei_work : ∀ o, o ∈ worklist st -> (obj_id o, o) ∈ seen st;
  ei_root : parents st !! obj_id root = None;
  ei_parent : ∀ i pid s, parents st !! i = Some (pid, s) ->
      ∃ p e, (pid, p) ∈ seen st ∧ (i, e) ∈ seen st
             ∧ (s, e) ∈ get_edges h p ∧ before (Dict.keys (seen st)) pid i;
  ei_dom : ∀ i x, (i, x) ∈ seen st ->
      i = obj_id root ∨ is_Some (parents st !! i)
}.

(** A path from the root to an object: each step holds the label of an edge
    and the object the edge leaves. *)
Inductive leads_to (h : heap) (root : obj) : list (Py.label * obj) -> obj -> Prop :=
| leads_nil : leads_to h root [] root
| leads_snoc path s p x :
    leads_to h root path p -> (s, x) ∈ get_edges h p ->
    leads_to h root (path ++ [(s, p)]) x.

(** The same chain read from the object up to the root. *)
Inductive climbs (h : heap) (root : obj) : obj -> list (Py.label * obj) -> Prop :=
| climbs_root : climbs h root root []
| climbs_step x s p l :
    (s, x) ∈ get_edges h p -> climbs h root p l ->
    climbs h root x ((s, p) :: l).

End Reports.

(** ** What the verdict reads of an entity *)

Module Verdicts.

(** Two entities the loop cannot tell apart: same concrete kind, same
    fully-qualified name, same overload flag. *)
Definition same_key (a b : obj) : Prop :=
  obj_type a = obj_type b ∧ fullname a = fullname b
  ∧ is_overload a = is_overload b.

(** Two grouping maps that bind the same names to entities of the same
    kinds. *)
Definition same_kinds (m m' : gmap string obj) : Prop :=
  ∀ fn, obj_type <$> (m !! fn) = obj_type <$> (m' !! fn).

Definition raised {A} (r : outcome A) : bool :=
  match r with
  | Normal _ => false
  | Raised _ => true
  end.

End Verdicts.

(** ** More sample graphs *)

Module MoreGraphs.
Import Graphs.

(** A class, a variable of the same name, and the class again. *)
Definition shadow_root : obj := node 1 T_list None (items [2; 3; 4]).
Definition shadow_class : obj := node 2 T_TypeInfo (Some "pkg.Foo") [].
Definition shadow_var : obj := node 3 T_Var (Some "pkg.Foo") [].
Definition shadow_func : obj := node 4 T_FuncDef (Some "pkg.f") [].
Definition shadow_heap : heap := [shadow_root; shadow_class; shadow_var; shadow_func].

(** A module whose table is reached twice: directly and through a class. *)
Definition shared_root : obj :=
  node 1 T_MypyFile (Some "pkg") [(Py.LStr "names", 2); (Py.LStr "defs", 3)].
Definition shared_table : obj := node 2 T_SymbolTable None [(Py.LStr "C", 3)].
Definition shared_class : obj :=
  node 3 T_TypeInfo (Some "pkg.C") [(Py.LStr "names", 2); (Py.LStr "module", 1)].
Definition shared_heap : heap := [shared_root; shared_table; shared_class].

End MoreGraphs.

(** * Properties *)

(** ** Python values *)

Module PyFacts.

Example repr_str_plain : Py.repr_str "pkg.mod.Foo" = "'pkg.mod.Foo'".
Proof. reflexivity. Qed.

Example repr_str_quote :
  Py.repr_str "it's" = String Py.dquote ("it's" +:+ String Py.dquote "").
Proof. reflexivity. Qed.

Example repr_str_escape :
  Py.repr_str (String Py.newline "a\b") = "'\na\\b'".
Proof. reflexivity. Qed.

Example str_int_zero : Py.str_int 0 = "0".
Proof. reflexivity. Qed.

Example repr_str_control :
  Py.repr_str (String (ascii_of_nat 1) (String (ascii_of_nat 173) "")) = "'\x01\xad'".
Proof. reflexivity. Qed.

Example repr_label_pair :
  Py.repr (Py.LPair (Py.LStr "f") (Py.LInt (-12))) = "('f', -12)".
Proof. reflexivity. Qed.

Lemma str_app_cons (x : ascii) (a b : string) : String x a +:+ b = String x (a +:+ b).
Proof. reflexivity. Qed.

Lemma str_app_assoc (a b c : string) : (a +:+ b) +:+ c = a +:+ b +:+ c.
Proof.
  induction a as [|x a IH]; [done|]. by rewrite !str_app_cons, IH.
Qed.

Lemma str_app_nil_r (a : string) : a +:+ "" = a.
Proof. induction a as [|x a IH]; [done|]. by rewrite str_app_cons, IH. Qed.

Lemma repr_char_plain c :
  Py.printable c = true -> Ascii.eqb c Py.squote = false ->
  Ascii.eqb c Py.backslash = false ->
  Py.repr_char Py.squote c = String c "".
Proof.
  destruct c as [[] [] [] [] [] [] [] []]; vm_compute; congruence.
Qed.

Lemma plain_name_cons c s :
  Design.plain_name (String c s) = true ->
  Py.printable c = true ∧ Ascii.eqb c Py.squote = false
  ∧ Ascii.eqb c Py.backslash = false ∧ Design.plain_name s = true.
Proof.
  cbn [Design.plain_name].
  intros [[[? ?%negb_true_iff]%andb_prop ?%negb_true_iff]%andb_prop ?]%andb_prop.
  done.
Qed.

Lemma plain_no_squote s :
  Design.plain_name s = true -> Py.contains_char Py.squote s = false.
Proof.
  induction s as [|c s IH]; [done|].
  intros (_ & Hq & _ & Hs)%plain_name_cons. cbn [Py.contains_char].
  rewrite Hq. by apply IH.
Qed.

Lemma repr_body_plain s :
  Design.plain_name s = true -> Py.repr_body Py.squote s = s.
Proof.
  induction s as [|c s IH]; [done|].
  intros (Hp & Hq & Hb & Hs)%plain_name_cons. cbn [Py.repr_body].
  rewrite repr_char_plain by done. rewrite IH by done. reflexivity.
Qed.

(** [repr] of a plain name is the name between single quotes. *)
Lemma repr_plain s :
  Design.plain_name s = true ->
  Py.repr_str s = String Py.squote (s +:+ String Py.squote "").
Proof.
  intros Hs. unfold Py.repr_str, Py.repr_quote.
  rewrite (plain_no_squote _ Hs). cbn [andb]. by rewrite repr_body_plain.
Qed.

End PyFacts.

(** ** Dictionaries *)

Module DictFacts.

Lemma has_true {V} (d : Dict.t V) k :
  Dict.has d k = true <-> ∃ v, (k, v) ∈ d.
Proof.
  unfold Dict.has. rewrite existsb_exists. split.
  - intros [[k' v] [Hin Hk]]. simpl in Hk. apply Z.eqb_eq in Hk as ->.
    exists v. by apply list_elem_of_In.
  - intros [v Hin]. exists (k, v). split; [by apply list_elem_of_In|].
    simpl. apply Z.eqb_refl.
Qed.

Lemma has_keys {V} (d : Dict.t V) k : Dict.has d k = true <-> k ∈ Dict.keys d.
Proof.
  rewrite has_true. unfold Dict.keys. rewrite list_elem_of_fmap. split.
  - intros [v Hin]. by exists (k, v).
  - intros [[k' v] [-> Hin]]. by exists v.
Qed.

Lemma set_fresh {V} (d : Dict.t V) k v :
  Dict.has d k = false -> Dict.set d k v = d ++ [(k, v)].
Proof.
  induction d as [|[k' v'] d IH]; simpl; [done|].
  destruct (Z.eqb k' k); simpl; [done|]. intros H. by rewrite IH.
Qed.

Lemma get_elem {V} (d : Dict.t V) k v :
  NoDup (Dict.keys d) -> (k, v) ∈ d -> Dict.get d k = Some v.
Proof.
  unfold Dict.get. induction d as [|[k' v'] d IH]; simpl.
  - by intros _ ?%elem_of_nil.
  - intros [Hk' Hd]%NoDup_cons [Heq|Hin]%elem_of_cons.
    + injection Heq as <- <-. by rewrite Z.eqb_refl.
    + destruct (Z.eqb_spec k' k) as [->|Hne]; [|by apply IH].
      exfalso. apply Hk'. apply list_elem_of_fmap. by exists (k, v).
Qed.

End DictFacts.

(** ** The graph walker *)

Module ObjgraphFacts.
Import Objgraph Invariants DictFacts.

Lemma deref_id h r o : deref h r = Some o -> obj_id o = r.
Proof.
  unfold deref. intros H. apply List.find_some in H as [_ H]. lia.
Qed.

Lemma deref_In h r o : deref h r = Some o -> o ∈ h.
Proof.
  unfold deref. intros H. apply List.find_some in H as [H _].
  by apply list_elem_of_In.
Qed.

Lemma get_edges_live h o s e :
  (s, e) ∈ get_edges h o -> deref h (obj_id e) = Some e.
Proof.
  unfold get_edges. intros [[s' r] [_ H]]%list_elem_of_omap.
  destruct (deref h r) as [e'|] eqn:Hd; [|done].
  injection H as -> ->. by rewrite (deref_id _ _ _ Hd).
Qed.

Lemma visit_cases o st s e :
  (Dict.has (seen st) (obj_id e) = true ∧ visit o st (s, e) = st) ∨
  (Dict.has (seen st) (obj_id e) = false ∧
   visit o st (s, e) =
     {| seen := seen st ++ [(obj_id e, e)];
        parents := <[obj_id e := (obj_id o, s)]> (parents st);
        worklist := e :: worklist st |}).
Proof.
  unfold visit. destruct (Dict.has (seen st) (obj_id e)) eqn:Hhas; [by left|].
  right. by rewrite set_fresh.
Qed.

Lemma grows_nil st : grows [] st st.
Proof.
  split; try done.
  - by intros s e ?%elem_of_nil.
  - intros i x ?. by left.
Qed.

Lemma grows_visit o st s e : grows [(s, e)] st (visit o st (s, e)).
Proof.
  destruct (visit_cases o st s e) as [[Hhas ->]|[Hhas ->]].
  - split; try done.
    + intros s' e' [=-> ->]%list_elem_of_singleton. done.
    + intros i x ?. by left.
  - split; simpl.
    + intros p ?. apply elem_of_app. by left.
    + intros x ?. by right.
    + intros s' e' [=-> ->]%list_elem_of_singleton.
      apply has_true. exists e. apply elem_of_app. right. by left.
    + intros i x [?|[=-> ->]%list_elem_of_singleton]%elem_of_app; [by left|].
      right. split; [by left|]. split; [done|]. exists s. by left.
    + intros Hnd. unfold Dict.keys. rewrite fmap_app. simpl.
      apply NoDup_app. split; [done|]. split; [|apply NoDup_singleton].
      intros k Hk ->%list_elem_of_singleton.
      apply has_keys in Hk. congruence.
    + rewrite length_app. simpl. lia.
Qed.

Lemma grows_step es st st1 edge st2 :
  grows [edge] st st1 -> grows es st1 st2 -> grows (edge :: es) st st2.
Proof.
  intros H1 H2. split.
  - intros p ?. by apply H2, H1.
  - intros x ?. by apply H2, H1.
  - intros s e [<-|?]%elem_of_cons; [|by eapply H2].
    assert (Dict.has (seen st1) (obj_id e) = true) as Hhas
      by (eapply H1; by left).
    apply has_true in Hhas as [v ?]. apply has_true. exists v. by apply H2.
  - intros i x Hin. destruct (grows_new _ _ _ H2 i x Hin) as [Hin1|(?&?&s&?)].
    + destruct (grows_new _ _ _ H1 i x Hin1) as [?|(?&?&s&Hs)]; [by left|].
      right. split; [by apply H2|]. split; [done|]. exists s.
      apply list_elem_of_singleton in Hs as ->. by left.
    + right. split; [done|]. split; [done|]. exists s. by right.
  - intros ?. by apply H2, H1.
  - pose proof (grows_len _ _ _ H1). pose proof (grows_len _ _ _ H2). lia.
Qed.

Lemma grows_fold o es : ∀ st, grows es st (fold_left (visit o) es st).
Proof.
  induction es as [|[s e] es IH]; intros st; simpl; [apply grows_nil|].
  eapply grows_step; [apply grows_visit | apply IH].
Qed.

(** One turn of the loop keeps the invariant. *)
Lemma inv_pop_and_visit h root st st' :
  inv h root st -> pop_and_visit h st = Some st' -> inv h root st'.
Proof.
  intros Hinv. unfold pop_and_visit.
  destruct (worklist st) as [|o wl] eqn:Hwl; [done|]. intros [= <-].
  set (st0 := {| seen := seen st; parents := parents st; worklist := wl |}).
  pose proof (grows_fold o (get_edges h o) st0) as Hg.
  set (st1 := fold_left (visit o) (get_edges h o) st0) in *.
  split.
  - apply Hg, Hinv.
  - intros i x Hin. destruct (grows_new _ _ _ Hg i x Hin) as [?|(_&->&_)];
      [by eapply inv_ids|done].
  - apply Hg. simpl. apply Hinv.
  - intros i x Hin. destruct (grows_new _ _ _ Hg i x Hin) as [?|(_&->&s&Hs)].
    + by eapply inv_live.
    + right. by eapply get_edges_live.
  - pose proof (grows_len _ _ _ Hg) as Hl. pose proof (inv_len _ _ _ Hinv) as Hl'.
    rewrite Hwl in Hl'. simpl in *. lia.
  - intros i x Hin. destruct (grows_new _ _ _ Hg i x Hin) as [Hold|(?&_)];
      [|by left].
    destruct (inv_closed _ _ _ Hinv i x Hold) as [Hw|Hc].
    + rewrite Hwl in Hw. apply elem_of_cons in Hw as [->|Hw].
      * right. intros s e Hse. by eapply Hg.
      * left. by apply Hg.
    + right. intros s e Hse. specialize (Hc s e Hse).
      apply has_true in Hc as [v ?]. apply has_true. exists v. by apply Hg.
Qed.

Lemma inv_init h root : inv h root (init root).
Proof.
  split; simpl.
  - apply NoDup_singleton.
  - by intros i o [= -> ->]%list_elem_of_singleton.
  - by left.
  - intros i o [= -> ->]%list_elem_of_singleton. by left.
  - lia.
  - intros i o [= -> ->]%list_elem_of_singleton. left. by left.
Qed.

Lemma inv_walk h root fuel : ∀ st, inv h root st -> inv h root (walk fuel h st).
Proof.
  induction fuel as [|n IH]; intros st Hinv; simpl; [done|].
  destruct (pop_and_visit h st) as [st'|] eqn:Hstep; [|done].
  apply IH. by eapply inv_pop_and_visit.
Qed.

(** The Node map never holds more than the live objects and the root. *)
Lemma inv_bound h root st :
  inv h root st -> (length (seen st) <= S (length h))%nat.
Proof.
  intros Hinv.
  assert (Dict.keys (seen st) ⊆+ obj_id root :: map obj_id h) as Hsub.
  { apply NoDup_submseteq; [apply Hinv|].
    intros k [[k' x] [-> Hin]]%list_elem_of_fmap. simpl.
    destruct (inv_live _ _ _ Hinv _ _ Hin) as [->|Hd].
    - rewrite (inv_ids _ _ _ Hinv _ _ Hin). by left.
    - right. apply list_elem_of_fmap. exists x. split; [|by eapply deref_In].
      by rewrite (deref_id _ _ _ Hd). }
  apply submseteq_length in Hsub. unfold Dict.keys in Hsub.
  rewrite length_fmap in Hsub. simpl in Hsub. by rewrite length_map in Hsub.
Qed.

Lemma pop_and_visit_len h st st' :
  pop_and_visit h st = Some st' ->
  (length (seen st') + length (worklist st)
   = S (length (seen st) + length (worklist st')))%nat.
Proof.
  unfold pop_and_visit. destruct (worklist st) as [|o wl]; [done|]. intros [= <-].
  pose proof (grows_len _ _ _
    (grows_fold o (get_edges h o)
       {| seen := seen st; parents := parents st; worklist := wl |})) as Hl.
  simpl in *. lia.
Qed.

(** With fuel for every object not yet popped, the loop empties the work
    list. *)
Lemma walk_empties h root fuel : ∀ st,
  inv h root st ->
  (S (length h) + length (worklist st) <= fuel + length (seen st))%nat ->
  worklist (walk fuel h st) = [].
Proof.
  induction fuel as [|n IH]; intros st Hinv Hfuel; simpl.
  - pose proof (inv_bound _ _ _ Hinv). destruct (worklist st); [done|].
    simpl in *. lia.
  - destruct (pop_and_visit h st) as [st'|] eqn:Hstep.
    + apply IH; [by eapply inv_pop_and_visit|].
      apply pop_and_visit_len in Hstep. lia.
    + unfold pop_and_visit in Hstep. by destruct (worklist st).
Qed.

Lemma walk_done h n : ∀ st, worklist st = [] -> walk n h st = st.
Proof.
  destruct n as [|n]; intros st Hwl; simpl; [done|].
  unfold pop_and_visit. by rewrite Hwl.
Qed.

Lemma walk_more h n k : ∀ st, walk (n + k) h st = walk k h (walk n h st).
Proof.
  induction n as [|n IH]; intros st; simpl; [done|].
  destruct (pop_and_visit h st) as [st'|] eqn:Hstep; [apply IH|].
  symmetry. apply walk_done. unfold pop_and_visit in Hstep. by destruct (worklist st).
Qed.

(** The traversal terminates: the fuel of [get_reachable_graph] empties the
    work list, and more fuel changes nothing. *)
Lemma walk_terminates h root :
  worklist (walk (S (length h)) h (init root)) = [] ∧
  ∀ n, (S (length h) <= n)%nat ->
       walk n h (init root) = walk (S (length h)) h (init root).
Proof.
  assert (worklist (walk (S (length h)) h (init root)) = []) as Hend.
  { apply (walk_empties h root); [apply inv_init|]. simpl. lia. }
  split; [done|]. intros n Hn.
  replace n with (S (length h) + (n - S (length h)))%nat by lia.
  rewrite walk_more. by apply walk_done.
Qed.

Lemma inv_final h root : inv h root (walk (S (length h)) h (init root)).
Proof. apply inv_walk, inv_init. Qed.

(** Every object of the graph rooted at a live [root] is in the Node map,
    under its own identity. *)
Lemma reach_seen h root x :
  deref h (obj_id root) = Some root ->
  reach h root x ->
  (obj_id x, x) ∈ seen (walk (S (length h)) h (init root)).
Proof.
  intros Hroot Hreach. pose proof (inv_final h root) as Hinv.
  destruct (walk_terminates h root) as [Hend _].
  induction Hreach as [|o s e _ IH He]; [apply Hinv|].
  destruct (inv_closed _ _ _ Hinv _ _ IH) as [Hw|Hc].
  { rewrite Hend in Hw. by apply elem_of_nil in Hw. }
  destruct (proj1 (has_true _ _) (Hc s e He)) as [x Hx].
  pose proof (get_edges_live _ _ _ _ He) as Hlive.
  destruct (inv_live _ _ _ Hinv _ _ Hx) as [->|Hd].
  - rewrite <- (inv_ids _ _ _ Hinv _ _ Hx) in Hlive. congruence.
  - congruence.
Qed.

Lemma values_ids (d : Dict.t obj) :
  (∀ i o, (i, o) ∈ d -> obj_id o = i) ->
  map obj_id (Dict.values d) = Dict.keys d.
Proof.
  induction d as [|[k v] d IH]; intros Hids; simpl; [done|].
  rewrite (Hids k v) by by left. f_equal. apply IH.
  intros i o ?. apply Hids. by right.
Qed.

Lemma reachable_ids h root :
  map obj_id (Dict.values (fst (get_reachable_graph h root)))
  = Dict.keys (fst (get_reachable_graph h root)).
Proof. apply values_ids, (inv_ids _ _ _ (inv_final h root)). Qed.

(** No identity is entered twice in the Node map. *)
Lemma seen_NoDup h root : NoDup (Dict.keys (fst (get_reachable_graph h root))).
Proof. apply (inv_nodup _ _ _ (inv_final h root)). Qed.

Lemma seen_once h root x :
  (obj_id x, x) ∈ fst (get_reachable_graph h root) ->
  count_occ Z.eq_dec (Dict.keys (fst (get_reachable_graph h root))) (obj_id x) = 1%nat
  ∧ Dict.get (fst (get_reachable_graph h root)) (obj_id x) = Some x.
Proof.
  intros Hin. pose proof (seen_NoDup h root) as Hnd. split.
  - apply NoDup_ListNoDup in Hnd. rewrite List.NoDup_count_occ' in Hnd.
    apply Hnd. apply list_elem_of_In. apply list_elem_of_fmap. by exists (obj_id x, x).
  - by apply get_elem.
Qed.

(** C8. Cycle safety: when the graph rooted at a live object [root] holds
    a cycle A -> B -> A, the traversal terminates (the work list is empty after the fuel of
    [get_reachable_graph], and any larger fuel gives the same state), and
    the identities of A and B each occur exactly once among the keys of the
    returned Node map, bound to A and to B. *)
Theorem cycle_safety h root A B sA sB :
  deref h (obj_id root) = Some root ->
  reach h root A ->
  (sB, B) ∈ get_edges h A ->
  (sA, A) ∈ get_edges h B ->
  let nodes := fst (get_reachable_graph h root) in
  worklist (walk (S (length h)) h (init root)) = []
  ∧ (∀ n, (S (length h) <= n)%nat ->
          walk n h (init root) = walk (S (length h)) h (init root))
  ∧ count_occ Z.eq_dec (Dict.keys nodes) (obj_id A) = 1%nat
  ∧ count_occ Z.eq_dec (Dict.keys nodes) (obj_id B) = 1%nat
  ∧ Dict.get nodes (obj_id A) = Some A
  ∧ Dict.get nodes (obj_id B) = Some B.
Proof.
  intros Hroot HA HAB HBA nodes.
  destruct (walk_terminates h root) as [Hend Hmore].
  assert (reach h root B) as HB by (by eapply reach_edge).
  destruct (seen_once h root A) as [? ?]; [by apply reach_seen|].
  destruct (seen_once h root B) as [? ?]; [by apply reach_seen|].
  done.
Qed.

Lemma cycle_safety_witness :
  let nodes := fst (get_reachable_graph Graphs.cyc_heap Graphs.cyc_A) in
  worklist (walk 3 Graphs.cyc_heap (init Graphs.cyc_A)) = []
  ∧ (∀ n, (3 <= n)%nat ->
          walk n Graphs.cyc_heap (init Graphs.cyc_A)
          = walk 3 Graphs.cyc_heap (init Graphs.cyc_A))
  ∧ count_occ Z.eq_dec (Dict.keys nodes) 1 = 1%nat
  ∧ count_occ Z.eq_dec (Dict.keys nodes) 2 = 1%nat
  ∧ Dict.get nodes 1 = Some Graphs.cyc_A
  ∧ Dict.get nodes 2 = Some Graphs.cyc_B.
Proof.
  apply (cycle_safety Graphs.cyc_heap Graphs.cyc_A Graphs.cyc_A Graphs.cyc_B
           (Py.LStr "module") (Py.LStr "defs")).
  - reflexivity.
  - apply reach_root.
  - vm_compute. left.
  - vm_compute. left.
Defined.

End ObjgraphFacts.

(** ** The duplicate checker *)

Module MergecheckFacts.
Import Objgraph Mergecheck Design ObjgraphFacts.

Lemma bind_normal {A B} (c : M A) (k : A -> M B) out a out' :
  c out = (Normal a, out') -> (let! x := c in k x) out = k a out'.
Proof. unfold bind. by intros ->. Qed.

Lemma bind_raised {A B} (c : M A) (k : A -> M B) out e out' :
  c out = (Raised e, out') -> (let! x := c in k x) out = (Raised e, out').
Proof. unfold bind. by intros ->. Qed.

Lemma for_each_app {A S} (body : S -> A -> M S) xs ys : ∀ s out,
  for_each body (xs ++ ys) s out
  = (let! s' := for_each body xs s in for_each body ys s') out.
Proof.
  induction xs as [|x xs IH]; intros s out; simpl; [reflexivity|].
  unfold bind. destruct (body s x out) as [[s'|e] out']; [|done].
  apply IH.
Qed.

Lemma checked_not_fake sym : checked sym = true -> isinstance sym FakeInfo = false.
Proof. unfold checked. by intros [?%negb_true_iff _]%andb_prop. Qed.

Lemma checked_not_exempt sym : checked sym = true -> exempt sym = false.
Proof. unfold checked. by intros [_ ?%negb_true_iff]%andb_prop. Qed.

Lemma checked_intro sym :
  isinstance sym FakeInfo = false -> exempt sym = false -> checked sym = true.
Proof. unfold checked. by intros -> ->. Qed.

(** The loop body, outcome by outcome. *)
Lemma check_sym_fake s p m sym out :
  isinstance sym FakeInfo = true -> check_sym s p m sym out = (Normal m, out).
Proof. unfold check_sym. by intros ->. Qed.

Lemma check_sym_absent s p m sym out :
  isinstance sym FakeInfo = false -> fullname sym = None ->
  check_sym s p m sym out = (Raised AssertionError, out).
Proof. unfold check_sym. by intros -> ->. Qed.

Lemma check_sym_exempt s p m sym out :
  fullname sym ≠ None -> exempt sym = true ->
  check_sym s p m sym out = (Normal m, out).
Proof.
  unfold check_sym, exempt. intros Hfn Hex.
  destruct (isinstance sym FakeInfo); [done|].
  destruct (fullname sym) as [fn|]; [|done].
  destruct (isinstance sym Var || isinstance sym Decorator) eqn:E; [done|].
  cbn [orb] in Hex. by rewrite Hex.
Qed.

Lemma check_sym_checked s p m sym fn out :
  checked sym = true -> fullname sym = Some fn ->
  check_sym s p m sym out =
    match m !! fn with
    | None => (Normal (<[fn := sym]> m), out)
    | Some e1 =>
        if decide (obj_type sym = obj_type e1) then
          (Raised AssertionError,
           out ++ [duplicate_header sym fn;
                   duplicate_line "[1]" sym (get_path sym s p);
                   duplicate_line "[2]" e1 (get_path e1 s p)])
        else (Normal m, out)
    end.
Proof.
  intros Hc Hfn. unfold check_sym.
  rewrite (checked_not_fake _ Hc), Hfn.
  pose proof (checked_not_exempt _ Hc) as Hex. unfold exempt in Hex.
  apply orb_false_elim in Hex as [-> ->].
  destruct (m !! fn) as [e1|] eqn:Hm; [|done].
  destruct (decide (obj_type sym = obj_type e1)) as [Ht|Ht].
  - rewrite (bool_decide_eq_true_2 _ Ht). simpl.
    assert (contains m fn = true) as ->.
    { unfold contains. apply bool_decide_eq_true_2. by rewrite Hm. }
    unfold DUMP_MISMATCH_NODES, when, bind, print, assert, ret. simpl.
    by rewrite <- !app_assoc.
  - by rewrite (bool_decide_eq_false_2 _ Ht).
Qed.

(** Whatever the entity, a name bound to an entity of another kind lets the
    loop go on with the map and the output as they were. *)
Lemma check_sym_other_kind s p m sym fn e1 out :
  fullname sym = Some fn -> m !! fn = Some e1 -> obj_type sym ≠ obj_type e1 ->
  check_sym s p m sym out = (Normal m, out).
Proof.
  intros Hfn Hm Ht.
  destruct (isinstance sym FakeInfo) eqn:Hfake; [by apply check_sym_fake|].
  destruct (exempt sym) eqn:Hex.
  - apply check_sym_exempt; [by rewrite Hfn | done].
  - rewrite (check_sym_checked _ _ _ _ fn) by (by apply checked_intro || done).
    rewrite Hm. by destruct (decide _).
Qed.

Lemma first_seen_cons_skip fn e pre :
  checked_named fn e = false -> first_seen fn (e :: pre) = first_seen fn pre.
Proof. unfold first_seen. simpl. by intros ->. Qed.

Lemma first_seen_cons_hit fn e pre :
  checked_named fn e = true -> first_seen fn (e :: pre) = Some e.
Proof. unfold first_seen. simpl. by intros ->. Qed.

Lemma first_seen_Some fn pre e :
  first_seen fn pre = Some e ->
  e ∈ pre ∧ checked e = true ∧ fullname e = Some fn.
Proof.
  unfold first_seen. intros [Hin Hc]%List.find_some.
  unfold checked_named in Hc. apply andb_prop in Hc as [? ?%bool_decide_eq_true].
  split; [by apply list_elem_of_In | done].
Qed.

(** A normal run of the loop prints nothing and binds each name to the
    first grouped entity that carries it. *)
Lemma for_each_grouping s p pre : ∀ m0 out0 m out,
  for_each (check_sym s p) pre m0 out0 = (Normal m, out) ->
  out = out0 ∧
  ∀ fn, m !! fn = match m0 !! fn with
                  | Some x => Some x
                  | None => first_seen fn pre
                  end.
Proof.
  induction pre as [|e pre IH]; intros m0 out0 m out; cbn [for_each].
  - unfold ret. intros [= <- <-]. split; [done|]. intros fn. by destruct (m0 !! fn).
  - unfold bind.
    destruct (check_sym s p m0 e out0) as [[m1|?] out1] eqn:Hstep; [|done].
    intros Hrest. destruct (IH _ _ _ _ Hrest) as [-> Hm].
    destruct (isinstance e FakeInfo) eqn:Hfake.
    { rewrite check_sym_fake in Hstep by done. injection Hstep as <- <-.
      split; [done|]. intros fn. rewrite Hm, first_seen_cons_skip; [done|].
      unfold checked_named, checked. by rewrite Hfake. }
    destruct (fullname e) as [fn0|] eqn:Hfn;
      [|by rewrite check_sym_absent in Hstep].
    destruct (exempt e) eqn:Hex.
    { rewrite check_sym_exempt in Hstep by (by rewrite ?Hfn).
      injection Hstep as <- <-.
      split; [done|]. intros fn. rewrite Hm, first_seen_cons_skip; [done|].
      unfold checked_named, checked. by rewrite Hex, andb_false_r. }
    assert (checked e = true) as Hc by by apply checked_intro.
    rewrite (check_sym_checked _ _ _ _ fn0) in Hstep by done.
    assert (∀ fn, fn ≠ fn0 -> checked_named fn e = false) as Hother.
    { intros fn Hne. unfold checked_named. rewrite Hfn.
      rewrite bool_decide_eq_false_2; [by rewrite andb_false_r | congruence]. }
    assert (checked_named fn0 e = true) as Hself.
    { unfold checked_named. rewrite Hc, Hfn. by rewrite bool_decide_eq_true_2. }
    destruct (m0 !! fn0) as [e1|] eqn:Hm0.
    + destruct (decide (obj_type e = obj_type e1)); [done|].
      injection Hstep as <- <-. split; [done|]. intros fn. rewrite Hm.
      destruct (decide (fn = fn0)) as [->|Hne]; [by rewrite Hm0|].
      by rewrite first_seen_cons_skip by by apply Hother.
    + injection Hstep as <- <-. split; [done|]. intros fn. rewrite Hm.
      destruct (decide (fn = fn0)) as [->|Hne].
      * by rewrite lookup_insert_eq, Hm0, first_seen_cons_hit.
      * rewrite lookup_insert_ne by done.
        by rewrite first_seen_cons_skip by by apply Hother.
Qed.

Lemma check_syms_grouping s p pre m out0 out :
  check_syms s p pre out0 = (Normal m, out) ->
  out = out0 ∧ ∀ fn, m !! fn = first_seen fn pre.
Proof.
  intros [-> Hm]%for_each_grouping. split; [done|].
  intros fn. by rewrite Hm, lookup_empty.
Qed.

(** [check_consistency] is the loop over [symbol_nodes], its map dropped. *)
Lemma check_consistency_run h o out :
  check_consistency h o out
  = (check_syms (get_reachable_graph h o).1 (get_reachable_graph h o).2
       (symbol_nodes h o);; ret tt) out.
Proof.
  unfold check_consistency, symbol_nodes, reachable.
  by destruct (get_reachable_graph h o).
Qed.

Lemma check_consistency_normal h o out m out' :
  check_syms (get_reachable_graph h o).1 (get_reachable_graph h o).2
    (symbol_nodes h o) out = (Normal m, out') ->
  check_consistency h o out = (Normal tt, out').
Proof. intros H. rewrite check_consistency_run. by rewrite (bind_normal _ _ _ _ _ H). Qed.

Lemma check_consistency_raised h o out e out' :
  check_syms (get_reachable_graph h o).1 (get_reachable_graph h o).2
    (symbol_nodes h o) out = (Raised e, out') ->
  check_consistency h o out = (Raised e, out').
Proof. intros H. rewrite check_consistency_run. by rewrite (bind_raised _ _ _ _ _ H). Qed.

(** A failure in a prefix of the loop is the failure of the whole loop. *)
Lemma check_syms_prefix_raised s p pre post out e out' :
  check_syms s p pre out = (Raised e, out') ->
  check_syms s p (pre ++ post) out = (Raised e, out').
Proof.
  unfold check_syms. intros H. rewrite for_each_app. by apply bind_raised.
Qed.

Lemma check_syms_snoc s p pre sym post out0 m out :
  check_syms s p pre out0 = (Normal m, out) ->
  check_syms s p (pre ++ sym :: post) out0
  = (let! m' := check_sym s p m sym in for_each (check_sym s p) post m') out.
Proof.
  unfold check_syms. intros H. rewrite for_each_app.
  by rewrite (bind_normal _ _ _ _ _ H).
Qed.

(** The loop stops at a same-kind collision with the first-seen entity and
    reports the new entity as [1] and the first-seen one as [2]. *)
Lemma collision_raises s p pre e post out0 m out fn e1 :
  check_syms s p pre out0 = (Normal m, out) ->
  checked e = true -> fullname e = Some fn ->
  m !! fn = Some e1 -> obj_type e = obj_type e1 ->
  check_syms s p (pre ++ e :: post) out0
  = (Raised AssertionError,
     out ++ [duplicate_header e fn;
             duplicate_line "[1]" e (get_path e s p);
             duplicate_line "[2]" e1 (get_path e1 s p)]).
Proof.
  intros Hpre Hc Hfn Hm Ht. rewrite (check_syms_snoc _ _ _ _ _ _ _ _ Hpre).
  apply bind_raised. rewrite (check_sym_checked _ _ _ _ fn) by done.
  rewrite Hm. by destruct (decide _).
Qed.

Lemma violation_raises s p syms out :
  violation syms -> ∃ out', check_syms s p syms out = (Raised AssertionError, out').
Proof.
  intros (pre & sym & post & -> & Hfake & Hv).
  destruct (check_syms s p pre out) as [[m|[]] out1] eqn:Hpre.
  2: { exists out1. by apply check_syms_prefix_raised. }
  destruct Hv as [Hnone|(fn & e1 & Hfn & Hc & Hfirst & Ht)].
  - exists out1. rewrite (check_syms_snoc _ _ _ _ _ _ _ _ Hpre).
    apply bind_raised. by apply check_sym_absent.
  - destruct (check_syms_grouping _ _ _ _ _ _ Hpre) as [_ Hm].
    eexists. eapply collision_raises; [done..| |done]. by rewrite Hm.
Qed.

Lemma violation_prefix pre post : violation pre -> violation (pre ++ post).
Proof.
  intros (l & sym & r & -> & Hv). exists l, sym, (r ++ post).
  split; [|done]. by rewrite <- app_assoc.
Qed.

Lemma no_violation_ok s p syms out :
  ¬ violation syms -> ∃ m, check_syms s p syms out = (Normal m, out).
Proof.
  induction syms as [|x l IH] using rev_ind; intros Hnv.
  { by exists ∅. }
  destruct IH as [m Hpre].
  { intros Hv. apply Hnv. by apply violation_prefix. }
  destruct (check_syms_grouping _ _ _ _ _ _ Hpre) as [_ Hm].
  rewrite (check_syms_snoc _ _ _ _ _ _ _ _ Hpre).
  assert (∀ m', check_sym s p m x out = (Normal m', out) ->
                ∃ m0, (let! m' := check_sym s p m x in
                       for_each (check_sym s p) [] m') out = (Normal m0, out))
    as Hgo.
  { intros m' Hx. exists m'. by rewrite (bind_normal _ _ _ _ _ Hx). }
  destruct (isinstance x FakeInfo) eqn:Hfake.
  { eapply Hgo. by apply check_sym_fake. }
  destruct (fullname x) as [fn|] eqn:Hfn.
  2: { exfalso. apply Hnv. exists l, x, []. split; [done|]. split; [done|]. by left. }
  destruct (exempt x) eqn:Hex.
  { eapply Hgo. apply check_sym_exempt; [by rewrite Hfn | done]. }
  assert (checked x = true) as Hc by by apply checked_intro.
  pose proof (check_sym_checked s p m x fn out Hc Hfn) as Hx.
  destruct (m !! fn) as [e1|] eqn:Hmfn; [|by eapply Hgo].
  destruct (decide (obj_type x = obj_type e1)) as [Ht|Ht]; [|by eapply Hgo].
  exfalso. apply Hnv. exists l, x, []. split; [done|]. split; [done|].
  right. exists fn, e1. by rewrite <- Hm.
Qed.

(** The SymbolNodes of the Node map have pairwise different identities. *)
Lemma symbol_nodes_NoDup h root : NoDup (map obj_id (symbol_nodes h root)).
Proof.
  unfold symbol_nodes, reachable.
  apply (sublist_NoDup _ (map obj_id (Dict.values (get_reachable_graph h root).1)));
    [rewrite reachable_ids; apply seen_NoDup|].
  apply (fmap_sublist obj_id). generalize (Dict.values (get_reachable_graph h root).1).
  intros l. induction l as [|x l IH]; cbn [List.filter]; [done|].
  destruct (isinstance x SymbolNode); [by apply sublist_skip | by apply sublist_cons].
Qed.

Lemma symbol_nodes_elem h root e :
  e ∈ symbol_nodes h root <->
  e ∈ reachable h root ∧ isinstance e SymbolNode = true.
Proof. unfold symbol_nodes. by rewrite list_elem_of_In, filter_In, <- list_elem_of_In. Qed.

Lemma split_ids_differ pre sym post e1 :
  NoDup (map obj_id (pre ++ sym :: post)) -> e1 ∈ pre -> obj_id e1 ≠ obj_id sym.
Proof.
  rewrite fmap_app. intros (_ & Hdisj & _)%NoDup_app Hin Heq.
  apply (Hdisj (obj_id e1)); [by apply list_elem_of_fmap_2|].
  rewrite Heq. simpl. by left.
Qed.

Lemma header_names_repr sym fn :
  substring (Py.repr_str fn) (duplicate_header sym fn).
Proof.
  exists (String Py.newline "Duplicate " +:+ Py.repr_str (type_name (obj_type sym))
          +:+ " nodes with fullname "), " found:".
  unfold duplicate_header. by rewrite !PyFacts.str_app_assoc.
Qed.

Lemma header_names_plain sym fn :
  plain_name fn = true -> substring fn (duplicate_header sym fn).
Proof.
  intros Hfn.
  exists (String Py.newline "Duplicate " +:+ Py.repr_str (type_name (obj_type sym))
          +:+ " nodes with fullname '"), "' found:".
  unfold duplicate_header. rewrite (PyFacts.repr_plain _ Hfn).
  rewrite !PyFacts.str_app_assoc. do 2 f_equal.
  rewrite !PyFacts.str_app_cons. rewrite PyFacts.str_app_assoc. reflexivity.
Qed.

(** C1 (amended). When the first grouped entity named [fn] and a later
    grouped entity named [fn] have the same concrete kind, the check raises
    the assertion failure. If no entity before the later one fails, the
    output is the report of this collision: the header, which holds
    [repr(fn)] (and [fn] itself when [fn] is a plain name), then the lines of
    the later and of the first-seen entity. *)
Theorem duplicate_detected h root pre e2 post e1 fn :
  symbol_nodes h root = pre ++ e2 :: post ->
  first_seen fn pre = Some e1 ->
  checked e2 = true -> fullname e2 = Some fn -> obj_type e2 = obj_type e1 ->
  let nodes := (get_reachable_graph h root).1 in
  let edges := (get_reachable_graph h root).2 in
  (∃ out, check_consistency h root [] = (Raised AssertionError, out))
  ∧ (∀ m out, check_syms nodes edges pre [] = (Normal m, out) ->
       check_consistency h root []
       = (Raised AssertionError,
          [duplicate_header e2 fn;
           duplicate_line "[1]" e2 (get_path e2 nodes edges);
           duplicate_line "[2]" e1 (get_path e1 nodes edges)]))
  ∧ substring (Py.repr_str fn) (duplicate_header e2 fn)
  ∧ (plain_name fn = true -> substring fn (duplicate_header e2 fn)).
Proof.
  intros Hsyms Hfirst Hc Hfn Ht nodes edges. repeat split.
  - destruct (violation_raises nodes edges (symbol_nodes h root) []) as [out Hout].
    { exists pre, e2, post. split; [done|].
      split; [by apply checked_not_fake|]. right. by exists fn, e1. }
    exists out. by apply check_consistency_raised.
  - intros m out Hpre.
    destruct (check_syms_grouping _ _ _ _ _ _ Hpre) as [-> Hm].
    apply check_consistency_raised. rewrite Hsyms.
    by rewrite (collision_raises _ _ _ _ _ _ _ _ fn e1 Hpre Hc Hfn)
      by (by rewrite ?Hm).
  - apply header_names_repr.
  - apply header_names_plain.
Qed.

Lemma duplicate_detected_witness :
  check_consistency Graphs.dup_heap Graphs.dup_root []
  = (Raised AssertionError,
     [String Py.newline "Duplicate 'TypeInfo' nodes with fullname 'pkg.mod.Foo' found:";
      "[1] 4: <root>.modules['other']";
      "[2] 3: <root>.modules['pkg']"]).
Proof.
  destruct (duplicate_detected Graphs.dup_heap Graphs.dup_root
              [Graphs.dup_first] Graphs.dup_second [] Graphs.dup_first "pkg.mod.Foo")
    as (_ & Hout & _); [reflexivity..|].
  exact (Hout _ _ eq_refl).
Defined.

(** C1, as stated, fails on an alias followed by two classes of its name:
    both classes are compared with the alias and the check passes. *)
Lemma kind_change_masks_duplicate :
  ¬ duplicates_always_reported Graphs.masked_heap Graphs.masked_root.
Proof.
  intros H.
  destruct (H Graphs.masked_info1 Graphs.masked_info2 "pkg.mod.Foo")
    as (out & Hout & _); try reflexivity.
  - vm_compute. do 2 right. left.
  - vm_compute. do 3 right. left.
  - vm_compute. discriminate.
  - vm_compute in Hout. discriminate.
Qed.

(** C2 (amended). Every reachable SymbolNode that is not a [FakeInfo] and
    has no fully-qualified name makes the check raise the assertion failure,
    whatever else the graph holds and whether or not the entity is exempt
    from duplicate checking. *)
Theorem absent_name_fatal h root e :
  e ∈ reachable h root ->
  isinstance e SymbolNode = true ->
  isinstance e FakeInfo = false ->
  fullname e = None ->
  ∃ out, check_consistency h root [] = (Raised AssertionError, out).
Proof.
  intros Hin Hsym Hfake Hfn.
  assert (e ∈ symbol_nodes h root) as Hsyms by by apply symbol_nodes_elem.
  apply list_elem_of_split in Hsyms as (pre & post & Hsplit).
  destruct (violation_raises (get_reachable_graph h root).1
              (get_reachable_graph h root).2 (symbol_nodes h root) [])
    as [out Hout].
  { exists pre, e, post. split; [done|]. split; [done|]. by left. }
  exists out. by apply check_consistency_raised.
Qed.

Lemma absent_name_fatal_witness :
  ∃ out, check_consistency Graphs.absent_heap Graphs.absent_root []
         = (Raised AssertionError, out).
Proof.
  apply (absent_name_fatal Graphs.absent_heap Graphs.absent_root Graphs.absent_file).
  - vm_compute. do 2 right. left.
  - reflexivity.
  - reflexivity.
  - reflexivity.
Defined.

(** An exempt entity without a name is fatal too. *)
Example absent_name_exempt_kind :
  check_consistency Graphs.unnamed_heap Graphs.unnamed_root []
  = (Raised AssertionError, []).
Proof. reflexivity. Qed.

(** C2, as stated, fails on a [FakeInfo] without a name: the loop skips it
    before the name is read. *)
Lemma fakeinfo_absent_name_passes :
  ¬ absent_name_always_fatal Graphs.lone_heap Graphs.lone_fake.
Proof.
  intros H. destruct (H Graphs.lone_fake) as [out Hout]; try reflexivity.
  - vm_compute. left.
  - vm_compute in Hout. discriminate.
Qed.

Lemma other_kind_transparent s p pre sym post first fn out :
  fullname sym = Some fn -> first_seen fn pre = Some first ->
  obj_type sym ≠ obj_type first ->
  check_syms s p (pre ++ sym :: post) out = check_syms s p (pre ++ post) out.
Proof.
  intros Hfn Hfirst Ht. unfold check_syms. rewrite !for_each_app.
  unfold bind at 1 2.
  destruct (for_each (check_sym s p) pre ∅ out) as [[m|e] out1] eqn:Hpre; [|done].
  destruct (check_syms_grouping _ _ _ _ _ _ Hpre) as [_ Hm].
  cbn [for_each]. unfold bind at 1.
  rewrite (check_sym_other_kind s p m sym fn first out1); [done..| |done].
  by rewrite Hm.
Qed.

(** C3 (amended). Kind change tolerated: when a reachable SymbolNode carries
    the name of the first-seen grouped entity before it in traversal order
    and that entity is of another concrete kind, the collision is no
    violation. At that entity the loop neither raises nor prints nor records
    it (the name stays bound to the first-seen entity), the call behaves
    exactly as on the SymbolNodes without it, and it completes without
    raising and without output whenever those hold no violation. *)
Theorem kind_change_tolerated h root pre sym post first fn out :
  let nodes := (get_reachable_graph h root).1 in
  let edges := (get_reachable_graph h root).2 in
  symbol_nodes h root = pre ++ sym :: post ->
  fullname sym = Some fn ->
  first_seen fn pre = Some first ->
  obj_type sym ≠ obj_type first ->
  (∀ m out', check_syms nodes edges pre out = (Normal m, out') ->
     m !! fn = Some first
     ∧ check_sym nodes edges m sym out' = (Normal m, out')
     ∧ check_syms nodes edges (pre ++ [sym]) out = (Normal m, out'))
  ∧ check_consistency h root out
    = (check_syms nodes edges (pre ++ post);; ret tt) out
  ∧ (¬ violation (pre ++ post) ->
     check_consistency h root out = (Normal tt, out)).
Proof.
  intros nodes edges Hsyms Hfn Hfirst Ht.
  assert (check_consistency h root out
          = (check_syms nodes edges (pre ++ post);; ret tt) out) as Hrun.
  { rewrite check_consistency_run, Hsyms. fold nodes edges. unfold bind.
    by rewrite (other_kind_transparent _ _ _ _ _ first fn). }
  split; [|split; [done|]].
  - intros m out' Hpre.
    destruct (check_syms_grouping _ _ _ _ _ _ Hpre) as [_ Hm].
    assert (m !! fn = Some first) as Hbound by by rewrite Hm.
    pose proof (check_sym_other_kind nodes edges m sym fn first out' Hfn Hbound Ht)
      as Hstep.
    split; [done|]. split; [done|].
    rewrite (check_syms_snoc _ _ _ _ _ _ _ _ Hpre).
    by rewrite (bind_normal _ _ _ _ _ Hstep).
  - intros Hnv. rewrite Hrun.
    destruct (no_violation_ok nodes edges _ out Hnv) as [m Hm].
    by rewrite (bind_normal _ _ _ _ _ Hm).
Qed.

Lemma kind_change_tolerated_witness :
  check_consistency Graphs.kind_heap Graphs.kind_root [] = (Normal tt, []).
Proof.
  destruct (kind_change_tolerated Graphs.kind_heap Graphs.kind_root
              [Graphs.kind_info] Graphs.kind_alias [] Graphs.kind_info
              "pkg.mod.Foo" []) as (_ & Hrun & _).
  - reflexivity.
  - reflexivity.
  - reflexivity.
  - vm_compute. discriminate.
  - exact Hrun.
Defined.

(** C3, as stated, fails on a class, an alias and a class again, all of one
    name: the alias and the second class share the name and differ in kind,
    yet the second class collides with the first and the check raises. *)
Lemma kind_change_pair_beside_duplicate :
  ¬ kind_change_never_fails Graphs.third_heap Graphs.third_root.
Proof.
  intros H.
  apply (H Graphs.third_alias Graphs.third_info2 "pkg.mod.Foo") with
    (out := [String Py.newline "Duplicate 'TypeInfo' nodes with fullname 'pkg.mod.Foo' found:";
             "[1] 4: <root>[2]"; "[2] 2: <root>[0]"]); try reflexivity.
  - vm_compute. do 2 right. left.
  - vm_compute. do 3 right. left.
  - vm_compute. discriminate.
Qed.

(** A variable followed by a class of its name: the pair differs in kind,
    and the class, the second of the two, is recorded. *)
Example second_of_pair_recorded :
  check_syms [] ∅
    [Graphs.node 2 T_Var (Some "pkg.x") []; Graphs.node 3 T_TypeInfo (Some "pkg.x") []] []
  = (Normal (<["pkg.x" := Graphs.node 3 T_TypeInfo (Some "pkg.x") []]> ∅), []).
Proof. reflexivity. Qed.

Lemma no_violation_silent h root out :
  ¬ violation (symbol_nodes h root) ->
  check_consistency h root out = (Normal tt, out).
Proof.
  intros Hnv.
  destruct (no_violation_ok (get_reachable_graph h root).1
              (get_reachable_graph h root).2 _ out Hnv) as [m Hm].
  by eapply check_consistency_normal.
Qed.

(** C6. If the loop finds no violation among the reachable SymbolNodes,
    [check_consistency] returns normally and the output is what it was
    before the call: nothing is printed and nothing is raised. *)
Theorem silent_without_violation h root out :
  ¬ violation (symbol_nodes h root) ->
  check_consistency h root out = (Normal tt, out).
Proof. apply no_violation_silent. Qed.

Lemma no_violation_sample :
  ¬ violation (symbol_nodes Graphs.ok_heap Graphs.ok_root).
Proof.
  intros Hv.
  destruct (violation_raises (get_reachable_graph Graphs.ok_heap Graphs.ok_root).1
              (get_reachable_graph Graphs.ok_heap Graphs.ok_root).2 _ [] Hv)
    as [out Hout].
  vm_compute in Hout. discriminate.
Defined.

Lemma silent_without_violation_witness :
  check_consistency Graphs.ok_heap Graphs.ok_root ["earlier output"]
  = (Normal tt, ["earlier output"]).
Proof.
  apply (silent_without_violation Graphs.ok_heap Graphs.ok_root).
  exact no_violation_sample.
Defined.

(** A graph passes when every SymbolNode outside [FakeInfo] has a name and
    no two grouped entities of different identity share one. *)
Lemma no_sharing_no_violation h root :
  (∀ e, e ∈ symbol_nodes h root -> isinstance e FakeInfo = false ->
        fullname e ≠ None) ->
  (∀ e1 e2, e1 ∈ symbol_nodes h root -> e2 ∈ symbol_nodes h root ->
            obj_id e1 ≠ obj_id e2 -> checked e1 = true -> checked e2 = true ->
            fullname e1 ≠ fullname e2) ->
  ¬ violation (symbol_nodes h root).
Proof.
  intros Hnamed Hdistinct (pre & sym & post & Hsyms & Hfake & Hv).
  pose proof (symbol_nodes_NoDup h root) as Hnd. rewrite Hsyms in Hnd, Hnamed, Hdistinct.
  assert (sym ∈ pre ++ sym :: post) as Hsym.
  { apply elem_of_app. right. by left. }
  destruct Hv as [Hnone|(fn & e1 & Hfn & Hc & Hfirst & _)].
  - by apply (Hnamed sym).
  - apply first_seen_Some in Hfirst as (Hin & Hc1 & Hfn1).
    apply (Hdistinct e1 sym); try done.
    + apply elem_of_app. by left.
    + by eapply split_ids_differ.
    + congruence.
Qed.

(** C4 (amended). Exemptions honored: when the only SymbolNodes that share
    a fully-qualified name are variables, decorators and overload variants,
    and no SymbolNode outside [FakeInfo] lacks a name, the check completes
    without raising and without output. *)
Theorem exemptions_honored h root :
  only_exempt_share (symbol_nodes h root) ->
  (∀ e, e ∈ symbol_nodes h root -> isinstance e FakeInfo = false ->
        fullname e ≠ None) ->
  check_consistency h root [] = (Normal tt, []).
Proof.
  intros Hshare Hnamed. apply no_violation_silent.
  apply no_sharing_no_violation; [done|].
  intros e1 e2 H1 H2 Hid Hc1 _ Hfn.
  destruct (fullname e1) as [fn|] eqn:Hfn1.
  - destruct (Hshare e1 e2 fn H1 H2 Hid Hfn1) as [Hex _]; [done|].
    apply checked_not_exempt in Hc1. congruence.
  - by apply (Hnamed e1 H1 (checked_not_fake _ Hc1)).
Qed.

Lemma exempt_syms :
  symbol_nodes Graphs.exempt_heap Graphs.exempt_root
  = [Graphs.node 2 T_Var (Some "pkg.x") []; Graphs.node 3 T_Var (Some "pkg.x") [];
     Graphs.node 4 T_Decorator (Some "pkg.f") [];
     Graphs.node 5 T_Decorator (Some "pkg.f") [];
     Graphs.overload_variant 6 "pkg.g"; Graphs.overload_variant 7 "pkg.g"].
Proof. reflexivity. Defined.

Lemma exemptions_honored_witness :
  check_consistency Graphs.exempt_heap Graphs.exempt_root [] = (Normal tt, []).
Proof.
  apply (exemptions_honored Graphs.exempt_heap Graphs.exempt_root).
  - assert (∀ e, e ∈ symbol_nodes Graphs.exempt_heap Graphs.exempt_root ->
                 exempt e = true) as Hall.
    { intros e He. rewrite exempt_syms in He.
      repeat (apply elem_of_cons in He as [->|He]; [reflexivity|]).
      by apply elem_of_nil in He. }
    intros e1 e2 fn H1 H2 _ _ _. split; by apply Hall.
  - intros e He _. rewrite exempt_syms in He.
    repeat (apply elem_of_cons in He as [->|He]; [discriminate|]).
    by apply elem_of_nil in He.
Defined.

Lemma unnamed_syms :
  symbol_nodes Graphs.unnamed_heap Graphs.unnamed_root
  = [Graphs.node 2 T_Var (Some "pkg.x") []; Graphs.node 3 T_Var (Some "pkg.x") [];
     Graphs.unnamed_var].
Proof. reflexivity. Qed.

(** C4, as stated, fails on two variables of one name beside a variable
    without a name: only exempt entities share a name, yet the absent name
    is fatal. *)
Lemma exempt_sharing_with_absent_name :
  ¬ exempt_sharing_never_fails Graphs.unnamed_heap Graphs.unnamed_root.
Proof.
  intros H. destruct H as [out Hout].
  - assert (∀ e, e ∈ symbol_nodes Graphs.unnamed_heap Graphs.unnamed_root ->
                 exempt e = true) as Hall.
    { intros e He. rewrite unnamed_syms in He.
      repeat (apply elem_of_cons in He as [->|He]; [reflexivity|]).
      by apply elem_of_nil in He. }
    intros e1 e2 fn H1 H2 _ _ _. split; by apply Hall.
  - vm_compute in Hout. discriminate.
Qed.

(** C5. No false positive: when all reachable SymbolNodes have names and the
    names are pairwise different, the check completes without raising (and
    without output). *)
Theorem distinct_names_pass h root :
  Forall (λ e, fullname e ≠ None) (symbol_nodes h root) ->
  NoDup (map fullname (symbol_nodes h root)) ->
  check_consistency h root [] = (Normal tt, []).
Proof.
  intros Hnamed Hdistinct. apply no_violation_silent.
  intros (pre & sym & post & Hsyms & Hfake & Hv).
  rewrite Hsyms in Hnamed, Hdistinct.
  destruct Hv as [Hnone|(fn & e1 & Hfn & _ & Hfirst & _)].
  - apply Forall_app in Hnamed as [_ [Hsym _]%Forall_cons]. done.
  - apply first_seen_Some in Hfirst as (Hin & _ & Hfn1).
    rewrite fmap_app in Hdistinct. apply NoDup_app in Hdistinct as (_ & Hdisj & _).
    apply (Hdisj (Some fn)).
    + rewrite <- Hfn1. by apply list_elem_of_fmap_2.
    + rewrite <- Hfn. simpl. by left.
Qed.

Lemma distinct_names_pass_witness :
  check_consistency Graphs.ok_heap Graphs.ok_root [] = (Normal tt, []).
Proof.
  apply (distinct_names_pass Graphs.ok_heap Graphs.ok_root).
  - vm_compute. repeat constructor; discriminate.
  - vm_compute. repeat constructor; rewrite ?elem_of_cons, ?elem_of_nil;
      intuition discriminate.
Defined.

(** C9. A reachable [FakeInfo] is skipped before every check: whatever
    its name, the body returns the map and the output unchanged, and the
    whole check runs as on the SymbolNodes without it. *)
Theorem fakeinfo_skipped h root pre sym post out :
  let nodes := (get_reachable_graph h root).1 in
  let edges := (get_reachable_graph h root).2 in
  symbol_nodes h root = pre ++ sym :: post ->
  isinstance sym FakeInfo = true ->
  (∀ m out', check_sym nodes edges m sym out' = (Normal m, out'))
  ∧ check_consistency h root out
    = (check_syms nodes edges (pre ++ post);; ret tt) out.
Proof.
  intros nodes edges Hsyms Hfake.
  assert (∀ m out', check_sym nodes edges m sym out' = (Normal m, out')) as Hskip.
  { intros m out'. by apply check_sym_fake. }
  split; [done|].
  rewrite check_consistency_run, Hsyms. fold nodes edges.
  unfold bind at 1 2, check_syms. rewrite !for_each_app.
  unfold bind at 1 2.
  destruct (for_each (check_sym nodes edges) pre ∅ out) as [[m|e] out1]; [|done].
  cbn [for_each]. unfold bind at 1. by rewrite Hskip.
Qed.

Lemma fakeinfo_skipped_witness :
  check_consistency Graphs.fake_heap Graphs.fake_root [] = (Normal tt, []).
Proof.
  destruct (fakeinfo_skipped Graphs.fake_heap Graphs.fake_root
              [Graphs.fake_class] Graphs.fake_info [Graphs.fake_func] [])
    as [_ Hrun].
  - reflexivity.
  - reflexivity.
  - exact Hrun.
Defined.



End MergecheckFacts.

(** ** The path renderer *)

Module PathFacts.
Import Mergecheck Design.

Lemma name_in_elem t names : name_in t names = true <-> t ∈ names.
Proof.
  unfold name_in. rewrite existsb_exists. split.
  - intros [x [Hin ->%String.eqb_eq]]. by apply list_elem_of_In.
  - intros Hin. exists t. split; [by apply list_elem_of_In | apply String.eqb_refl].
Qed.

Lemma name_in_not_elem t names : name_in t names = false <-> t ∉ names.
Proof.
  rewrite <- name_in_elem. by destruct (name_in t names).
Qed.

(** Each turn of the loop appends one fragment, rendered as the four cases
    say. *)
Lemma render_step_fragment acc attr o :
  ∃ frag, renders_as (attr, o) frag ∧ render_step acc (attr, o) = acc +:+ frag.
Proof.
  unfold render_step.
  destruct (name_in (type_name (obj_type o)) ["dict"; "tuple"; "SymbolTable"; "list"])
    eqn:Hc.
  { eexists. split; [|reflexivity]. apply render_container. by apply name_in_elem. }
  destruct (isinstance o Var) eqn:Hv.
  { eexists. split; [|reflexivity]. by apply render_var. }
  destruct (name_in (type_name (obj_type o)) ["BuildManager"; "FineGrainedBuildManager"])
    eqn:Hm.
  { eexists. split; [|reflexivity]. apply render_manager. by apply name_in_elem. }
  eexists. split; [|reflexivity].
  apply render_other; [by apply name_in_not_elem | done | by apply name_in_not_elem].
Qed.

Lemma fold_render path : ∀ acc,
  ∃ frags, Forall2 renders_as path frags
           ∧ fold_left render_step path acc = acc +:+ join frags.
Proof.
  induction path as [|[attr o] path IH]; intros acc.
  - exists []. split; [constructor|]. simpl. by rewrite PyFacts.str_app_nil_r.
  - destruct (render_step_fragment acc attr o) as (frag & Hfrag & Hstep).
    destruct (IH (render_step acc (attr, o))) as (frags & Hfrags & Hfold).
    exists (frag :: frags). split; [by constructor|].
    cbn [fold_left join fold_right]. rewrite Hfold, Hstep.
    apply PyFacts.str_app_assoc.
Qed.

Lemma path_to_str_parts (path : list (Py.label * obj)) :
  ∃ frags, Forall2 renders_as path frags
           ∧ path_to_str path = "<root>" +:+ join frags.
Proof. apply fold_render. Qed.

(** C7. The rendering of a path is the root marker followed, in order, by
    one fragment per step: a subscript [[repr(label)]] under a container
    kind (dict, tuple, SymbolTable, list), [.label(Kind:name)] for a [Var],
    a bare [.label] under BuildManager or FineGrainedBuildManager, and
    [.label(Kind)] for every other object. *)
Theorem path_to_str_renders (path : list (Py.label * obj)) :
  ∃ frags, Forall2 renders_as path frags
           ∧ path_to_str path = "<root>" +:+ join frags.
Proof. apply fold_render. Qed.

(** The four cases exclude one another: a step has one rendering. *)
Lemma renders_as_functional step f1 f2 :
  renders_as step f1 -> renders_as step f2 -> f1 = f2.
Proof.
  assert (∀ o names, isinstance o Var = true -> name_in "Var" names = false ->
                     type_name (obj_type o) ∈ names -> False) as Hvar.
  { intros o names Hv Hn Hin. apply name_in_elem in Hin.
    unfold isinstance in Hv. destruct (obj_type o); try discriminate.
    simpl in Hin. congruence. }
  assert (∀ t, t ∈ ["dict"; "tuple"; "SymbolTable"; "list"] ->
               t ∈ ["BuildManager"; "FineGrainedBuildManager"] -> False) as Hcm.
  { intros t H1 H2.
    repeat (apply elem_of_cons in H1 as [->|H1];
            [apply name_in_elem in H2; discriminate|]).
    by apply elem_of_nil in H1. }
  intros H1 H2.
  inversion H1; subst; inversion H2; subst; try done; exfalso;
    try congruence;
    try match goal with
        | Hv : isinstance ?o Var = true, Hin : type_name (obj_type ?o) ∈ ?names
          |- _ => exact (Hvar o names Hv eq_refl Hin)
        end;
    by eapply Hcm.
Qed.

Lemma path_to_str_unique path frags :
  Forall2 renders_as path frags -> path_to_str path = "<root>" +:+ join frags.
Proof.
  intros Hfrags. destruct (path_to_str_parts path) as (frags' & Hfrags' & ->).
  f_equal. f_equal. revert frags' Hfrags'.
  induction Hfrags as [|step f path frags Hf _ IH]; intros frags' Hfrags';
    inversion Hfrags'; subst; [done|].
  f_equal; [by eapply renders_as_functional | by apply IH].
Qed.

Example path_to_str_sample :
  path_to_str Graphs.sample_path
  = "<root>.modules['pkg'].node(Var:x).info(TypeInfo)[0]".
Proof. reflexivity. Qed.

End PathFacts.

(** ** More on the duplicate checker *)

Module MergecheckMore.
Import Objgraph Mergecheck Design Reports MergecheckFacts.

Lemma check_consistency_raised_inv h o out e out' :
  check_consistency h o out = (Raised e, out') ->
  check_syms (get_reachable_graph h o).1 (get_reachable_graph h o).2
    (symbol_nodes h o) out = (Raised e, out').
Proof.
  rewrite check_consistency_run. unfold bind.
  destruct (check_syms _ _ _ out) as [[m|e1] out1]; [done|]. by intros [= -> ->].
Qed.

(** A run that raises stopped at one entity, after a normal run over the
    entities before it, for one of the two reasons of [stops_at]. *)
Lemma raised_stops s p syms : ∀ out out',
  check_syms s p syms out = (Raised AssertionError, out') ->
  ∃ pre sym post m printed,
    syms = pre ++ sym :: post
    ∧ check_syms s p pre out = (Normal m, out)
    ∧ stops_at s p pre sym printed
    ∧ out' = out ++ printed.
Proof.
  induction syms as [|x l IH] using rev_ind; intros out out' Hrun; [done|].
  destruct (check_syms s p l out) as [[m|[]] out1] eqn:Hpre.
  - destruct (check_syms_grouping _ _ _ _ _ _ Hpre) as [-> Hm].
    rewrite (check_syms_snoc _ _ _ _ _ _ _ _ Hpre) in Hrun.
    assert (∀ m', check_sym s p m x out = (Normal m', out) -> False) as Hno.
    { intros m' Hx. by rewrite (bind_normal _ _ _ _ _ Hx) in Hrun. }
    destruct (isinstance x FakeInfo) eqn:Hfake.
    { exfalso. eapply Hno. by apply check_sym_fake. }
    destruct (fullname x) as [fn|] eqn:Hfn.
    2: { rewrite (bind_raised _ _ _ _ _
                    (check_sym_absent s p m x out Hfake Hfn)) in Hrun.
         injection Hrun as <-. exists l, x, [], m, [].
         rewrite app_nil_r. repeat split; try done. by left. }
    destruct (exempt x) eqn:Hex.
    { exfalso. eapply Hno. apply check_sym_exempt; [by rewrite Hfn | done]. }
    assert (checked x = true) as Hc by by apply checked_intro.
    pose proof (check_sym_checked s p m x fn out Hc Hfn) as Hx.
    destruct (m !! fn) as [e1|] eqn:Hmfn; [|exfalso; by eapply Hno].
    destruct (decide (obj_type x = obj_type e1)) as [Ht|Ht];
      [|exfalso; by eapply Hno].
    rewrite (bind_raised _ _ _ _ _ Hx) in Hrun. injection Hrun as <-.
    rewrite Hm in Hmfn. destruct (first_seen_Some _ _ _ Hmfn) as (Hin & Hc1 & Hfn1).
    exists l, x, [], m, (report s p x e1 fn). repeat split; try done.
    right. exists fn, e1. repeat split; try done.
    + by apply checked_not_exempt.
    + by apply checked_not_fake.
  - rewrite (check_syms_prefix_raised _ _ _ _ _ _ _ Hpre) in Hrun.
    injection Hrun as <-.
    destruct (IH _ _ Hpre) as (pre & sym & post & m & printed & -> & ? & ? & ?).
    exists pre, sym, (post ++ [x]), m, printed.
    split; [by rewrite <- app_assoc | done].
Qed.

(** X1. The check raises exactly when the reachable SymbolNodes hold a
    violation: an entity outside [FakeInfo] without a name, or a grouped
    entity of the same concrete kind as the first-seen grouped entity of its
    name. *)
Theorem raises_iff_violation h root out :
  (∃ out', check_consistency h root out = (Raised AssertionError, out'))
  <-> violation (symbol_nodes h root).
Proof.
  split.
  - intros [out' Hrun%check_consistency_raised_inv].
    destruct (raised_stops _ _ _ _ _ Hrun)
      as (pre & sym & post & m & printed & Hsyms & _ & [Hfake Hwhy] & _).
    exists pre, sym, post. split; [done|]. split; [done|].
    destruct Hwhy as [[? _]|(fn & e1 & ? & ? & ? & _ & _ & _ & _ & ? & _)];
      [by left|].
    right. exists fn, e1. repeat split; try done. by apply checked_intro.
  - intros Hv.
    destruct (violation_raises (get_reachable_graph h root).1
                (get_reachable_graph h root).2 _ out Hv) as [out' Hout].
    exists out'. by apply check_consistency_raised.
Qed.

(** X2. A failure is never spurious and never verbose: when the check
    raises, the SymbolNodes split at one entity that either has no name, and
    then nothing was printed, or collides with the first-seen entity of its
    name, an earlier entity of the same concrete kind, neither of them
    exempt nor a [FakeInfo], and then exactly the three lines of the report
    were printed after the earlier output. *)
Theorem failure_is_genuine h root out out' :
  check_consistency h root out = (Raised AssertionError, out') ->
  ∃ pre sym post printed,
    symbol_nodes h root = pre ++ sym :: post
    ∧ stops_at (get_reachable_graph h root).1 (get_reachable_graph h root).2
        pre sym printed
    ∧ out' = out ++ printed.
Proof.
  intros Hrun%check_consistency_raised_inv.
  destruct (raised_stops _ _ _ _ _ Hrun)
    as (pre & sym & post & m & printed & ? & _ & ? & ?).
  by exists pre, sym, post, printed.
Qed.

Lemma failure_is_genuine_witness :
  ∃ pre sym post printed,
    symbol_nodes Graphs.dup_heap Graphs.dup_root = pre ++ sym :: post
    ∧ stops_at (get_reachable_graph Graphs.dup_heap Graphs.dup_root).1
        (get_reachable_graph Graphs.dup_heap Graphs.dup_root).2 pre sym printed
    ∧ [String Py.newline "Duplicate 'TypeInfo' nodes with fullname 'pkg.mod.Foo' found:";
       "[1] 4: <root>.modules['other']";
       "[2] 3: <root>.modules['pkg']"] = [] ++ printed.
Proof.
  apply (failure_is_genuine Graphs.dup_heap Graphs.dup_root []). reflexivity.
Defined.

(** The body decides on the entity and the map alone: the output so far
    and the snapshot only shape the text that is appended. *)
Lemma check_sym_decides s p s' p' m sym out out' :
  ∃ r lines lines',
    check_sym s p m sym out = (r, out ++ lines)
    ∧ check_sym s' p' m sym out' = (r, out' ++ lines')
    ∧ length lines = length lines'
    ∧ ((s, p) = (s', p') -> lines = lines').
Proof.
  destruct (isinstance sym FakeInfo) eqn:Hfake.
  { exists (Normal m), [], []. rewrite !app_nil_r.
    by rewrite !check_sym_fake. }
  destruct (fullname sym) as [fn|] eqn:Hfn.
  2: { exists (Raised AssertionError), [], []. rewrite !app_nil_r.
       by rewrite !check_sym_absent. }
  destruct (exempt sym) eqn:Hex.
  { exists (Normal m), [], []. rewrite !app_nil_r.
    by rewrite !check_sym_exempt by (by rewrite ?Hfn). }
  assert (checked sym = true) as Hc by by apply checked_intro.
  rewrite !(check_sym_checked _ _ _ _ fn) by done.
  destruct (m !! fn) as [e1|].
  2: { exists (Normal (<[fn:=sym]> m)), [], []. by rewrite !app_nil_r. }
  destruct (decide (obj_type sym = obj_type e1)).
  - eexists _, _, _. split; [done|]. split; [done|]. split; [done|].
    by intros [= -> ->].
  - exists (Normal m), [], []. by rewrite !app_nil_r.
Qed.

Lemma for_each_decides s p s' p' syms : ∀ m out out',
  ∃ r lines lines',
    for_each (check_sym s p) syms m out = (r, out ++ lines)
    ∧ for_each (check_sym s' p') syms m out' = (r, out' ++ lines')
    ∧ length lines = length lines'
    ∧ ((s, p) = (s', p') -> lines = lines').
Proof.
  induction syms as [|x syms IH]; intros m out out'; cbn [for_each].
  { exists (Normal m), [], []. by rewrite !app_nil_r. }
  destruct (check_sym_decides s p s' p' m x out out')
    as (r & l1 & l1' & H1 & H1' & Hlen1 & Heq1).
  destruct r as [m1|e].
  - rewrite (bind_normal _ _ _ _ _ H1), (bind_normal _ _ _ _ _ H1').
    destruct (IH m1 (out ++ l1) (out' ++ l1'))
      as (r & l2 & l2' & H2 & H2' & Hlen2 & Heq2).
    exists r, (l1 ++ l2), (l1' ++ l2'). rewrite !app_assoc.
    split; [done|]. split; [done|]. split.
    + rewrite !length_app. lia.
    + intros Heq. by rewrite Heq1, Heq2.
  - rewrite (bind_raised _ _ _ _ _ H1), (bind_raised _ _ _ _ _ H1').
    by exists (Raised e), l1, l1'.
Qed.

(** X4. Whether the loop raises, and the grouping map it ends with, depend
    on the list of SymbolNodes alone: with another Node map and Edge map the
    outcome is the same and as many lines are printed; only the paths shown
    in the report can differ. *)
Theorem verdict_ignores_snapshot (nodes nodes' : Dict.t obj)
    (edges edges' : gmap Z (Z * Py.label)) (syms : list obj) (out : list string) :
  (check_syms nodes edges syms out).1 = (check_syms nodes' edges' syms out).1
  ∧ length (check_syms nodes edges syms out).2
    = length (check_syms nodes' edges' syms out).2.
Proof.
  unfold check_syms.
  destruct (for_each_decides nodes edges nodes' edges' syms ∅ out out)
    as (r & l & l' & -> & -> & Hlen & _).
  split; [done|]. cbn [snd]. rewrite !length_app. lia.
Qed.

Lemma for_each_transparent {A S} (body : S -> A -> M S) x pre post :
  (∀ s out, body s x out = (Normal s, out)) ->
  ∀ s out, for_each body (pre ++ x :: post) s out = for_each body (pre ++ post) s out.
Proof.
  intros Hskip s out. rewrite !for_each_app. unfold bind at 1 2.
  destruct (for_each body pre s out) as [[s1|e] out1]; [|done].
  cbn [for_each]. unfold bind at 1. by rewrite Hskip.
Qed.

(** X5. A variable, decorator or overload variant that has a name is never
    grouped and never reported: the check runs exactly as on the SymbolNodes
    without it, whatever entities share its name. *)
Theorem exempt_is_transparent h root pre sym post out :
  symbol_nodes h root = pre ++ sym :: post ->
  exempt sym = true ->
  fullname sym ≠ None ->
  check_consistency h root out
  = (check_syms (get_reachable_graph h root).1 (get_reachable_graph h root).2
       (pre ++ post);; ret tt) out.
Proof.
  intros Hsyms Hex Hfn. rewrite check_consistency_run, Hsyms.
  unfold bind, check_syms. rewrite for_each_transparent; [done|].
  intros m out'. by apply check_sym_exempt.
Qed.

Lemma exempt_is_transparent_witness :
  check_consistency MoreGraphs.shadow_heap MoreGraphs.shadow_root []
  = (Normal tt, []).
Proof.
  rewrite (exempt_is_transparent MoreGraphs.shadow_heap MoreGraphs.shadow_root
             [MoreGraphs.shadow_class] MoreGraphs.shadow_var
             [MoreGraphs.shadow_func] []).
  - reflexivity.
  - reflexivity.
  - reflexivity.
  - discriminate.
Defined.

Lemma same_key_isinstance a b c :
  Verdicts.same_key a b -> isinstance a c = isinstance b c.
Proof. intros (Ht & _). unfold isinstance. by rewrite Ht. Qed.

Lemma same_key_exempt a b : Verdicts.same_key a b -> exempt a = exempt b.
Proof.
  intros Hk. unfold exempt. rewrite !(same_key_isinstance a b) by done.
  destruct Hk as (_ & _ & ->). done.
Qed.

Lemma same_kinds_insert m m' fn x x' :
  Verdicts.same_kinds m m' -> obj_type x = obj_type x' ->
  Verdicts.same_kinds (<[fn:=x]> m) (<[fn:=x']> m').
Proof.
  intros Hm Ht fn'. destruct (decide (fn = fn')) as [->|Hne].
  - rewrite !lookup_insert_eq. simpl. by rewrite Ht.
  - rewrite !lookup_insert_ne by done. apply Hm.
Qed.

(** On entities with the same key and maps with the same kinds the body
    raises in both runs or in neither, and keeps the maps alike. *)
Lemma check_sym_same_key s p s' p' m m' x x' out out' :
  Verdicts.same_key x x' -> Verdicts.same_kinds m m' ->
  match (check_sym s p m x out).1, (check_sym s' p' m' x' out').1 with
  | Normal m1, Normal m1' => Verdicts.same_kinds m1 m1'
  | Raised _, Raised _ => True
  | _, _ => False
  end.
Proof.
  intros Hk Hm.
  pose proof (same_key_isinstance x x' FakeInfo Hk) as Hfake.
  pose proof (same_key_exempt x x' Hk) as Hex.
  destruct Hk as (Ht & Hfn & _).
  destruct (isinstance x FakeInfo) eqn:Hf; symmetry in Hfake.
  { by rewrite !check_sym_fake. }
  destruct (fullname x) as [fn|] eqn:Hfnx; symmetry in Hfn.
  2: { by rewrite !check_sym_absent. }
  destruct (exempt x) eqn:Hexx; symmetry in Hex.
  { by rewrite !check_sym_exempt by (by rewrite ?Hfnx, ?Hfn). }
  rewrite !(check_sym_checked _ _ _ _ fn) by (by apply checked_intro || done).
  pose proof (Hm fn) as Hlook.
  destruct (m !! fn) as [e1|], (m' !! fn) as [e1'|]; try done.
  - injection Hlook as Ht1.
    destruct (decide (obj_type x = obj_type e1)),
             (decide (obj_type x' = obj_type e1')); try done; congruence.
  - by apply same_kinds_insert.
Qed.

Lemma for_each_same_key s p s' p' syms syms' :
  Forall2 Verdicts.same_key syms syms' ->
  ∀ m m' out out', Verdicts.same_kinds m m' ->
    Verdicts.raised (for_each (check_sym s p) syms m out).1
    = Verdicts.raised (for_each (check_sym s' p') syms' m' out').1.
Proof.
  induction 1 as [|x x' syms syms' Hk _ IH]; intros m m' out out' Hm;
    cbn [for_each]; [done|].
  pose proof (check_sym_same_key s p s' p' m m' x x' out out' Hk Hm) as Hstep.
  unfold bind.
  destruct (check_sym s p m x out) as [[m1|e] out1],
           (check_sym s' p' m' x' out') as [[m1'|e'] out1']; try done.
  by apply IH.
Qed.

(** X7. The verdict reads nothing of an entity but its concrete kind, its
    fully-qualified name and its overload flag: two lists of SymbolNodes
    that agree on these, entity by entity, both make the loop raise or both
    let it complete, whatever the identities, members, snapshots and earlier
    outputs. *)
Theorem verdict_reads_keys (nodes nodes' : Dict.t obj)
    (edges edges' : gmap Z (Z * Py.label)) (syms syms' : list obj)
    (out out' : list string) :
  Forall2 Verdicts.same_key syms syms' ->
  Verdicts.raised (check_syms nodes edges syms out).1
  = Verdicts.raised (check_syms nodes' edges' syms' out').1.
Proof. intros Hk. by apply for_each_same_key. Qed.

Lemma verdict_reads_keys_witness :
  Verdicts.raised
    (check_syms [] ∅ [Graphs.dup_first; Graphs.dup_second] []).1
  = Verdicts.raised
      (check_syms (get_reachable_graph Graphs.masked_heap Graphs.masked_root).1
         (get_reachable_graph Graphs.masked_heap Graphs.masked_root).2
         [Graphs.masked_info1; Graphs.masked_info2] ["earlier output"]).1.
Proof.
  apply (verdict_reads_keys [] _ ∅ _
           [Graphs.dup_first; Graphs.dup_second]
           [Graphs.masked_info1; Graphs.masked_info2]).
  repeat constructor.
Defined.

End MergecheckMore.

(** ** More on the path renderer *)

Module PathMore.
Import Mergecheck Design PathFacts.

Lemma str_length_app (a b : string) :
  String.length (a +:+ b) = (String.length a + String.length b)%nat.
Proof.
  induction a as [|c a IH]; [done|].
  rewrite PyFacts.str_app_cons. cbn [String.length]. by rewrite IH.
Qed.

Lemma fragment_nonempty step frag :
  renders_as step frag -> (1 <= String.length frag)%nat.
Proof.
  destruct 1; rewrite PyFacts.str_app_cons; cbn [String.length]; lia.
Qed.

Lemma fragments_length steps frags :
  Forall2 renders_as steps frags -> (length steps <= String.length (join frags))%nat.
Proof.
  induction 1 as [|step frag steps frags Hf _ IH]; [done|].
  cbn [join fold_right length]. rewrite str_length_app.
  apply fragment_nonempty in Hf. unfold join in IH. lia.
Qed.

(** X8. Rendering composes along the path: the rendering of [p ++ q] is the
    rendering of [p] followed by one fragment per step of [q], so the
    rendering of a path to an ancestor is a prefix of the rendering of the
    path to a descendant, and every added step adds at least one
    character. *)
Theorem extended_path_extends_rendering (p q : list (Py.label * obj)) :
  ∃ frags, Forall2 renders_as q frags
           ∧ path_to_str (p ++ q) = path_to_str p +:+ join frags
           ∧ (length q <= String.length (join frags))%nat.
Proof.
  unfold path_to_str. rewrite fold_left_app.
  destruct (fold_render q (fold_left render_step p "<root>"))
    as (frags & Hfrags & Hfold).
  exists frags. split; [done|]. split; [done|]. by apply fragments_length.
Qed.

End PathMore.

(** ** More on the graph walker *)

Module ObjgraphMore.
Import Objgraph Invariants Reports DictFacts ObjgraphFacts.

Lemma before_app ks ks' k k' : before ks k k' -> before (ks ++ ks') k k'.
Proof.
  intros (n & n' & Hn & Hn' & Hlt). exists n, n'.
  split; [by apply lookup_app_l_Some|]. split; [by apply lookup_app_l_Some|done].
Qed.

Lemma before_last ks k k' : k ∈ ks -> before (ks ++ [k']) k k'.
Proof.
  intros [n Hn]%list_elem_of_lookup. exists n, (length ks).
  split; [by apply lookup_app_l_Some|]. split.
  - by rewrite lookup_app_r, Nat.sub_diag.
  - by eapply lookup_lt_Some.
Qed.

Lemma edges_inv_visit h root o st s e :
  (obj_id o, o) ∈ seen st -> (obj_id root, root) ∈ seen st ->
  (s, e) ∈ get_edges h o ->
  edges_inv h root st -> edges_inv h root (visit o st (s, e)).
Proof.
  intros Ho Hroot He Hinv.
  destruct (visit_cases o st s e) as [[_ ->]|[Hfresh ->]]; [done|].
  assert (obj_id e ≠ obj_id root) as Hne.
  { intros Heq. rewrite Heq in Hfresh.
    assert (Dict.has (seen st) (obj_id root) = true) by (apply has_true; eauto).
    congruence. }
  split; simpl.
  - intros i x [?|[= -> ->]%list_elem_of_singleton]%elem_of_app.
    + by eapply ei_reach.
    + eapply reach_edge; [|done]. by eapply ei_reach.
  - intros x [->|?]%elem_of_cons; apply elem_of_app.
    + right. by left.
    + left. by apply Hinv.
  - rewrite lookup_insert_ne by done. apply Hinv.
  - intros i pid s0. unfold Dict.keys. rewrite fmap_app. simpl.
    destruct (decide (obj_id e = i)) as [<-|Hi].
    + rewrite lookup_insert_eq. intros [= <- <-]. exists o, e.
      split; [apply elem_of_app; by left|].
      split; [apply elem_of_app; right; by left|]. split; [done|].
      apply before_last. apply list_elem_of_fmap. by exists (obj_id o, o).
    + rewrite lookup_insert_ne by done. intros Hp.
      destruct (ei_parent _ _ _ Hinv _ _ _ Hp) as (p & x & ? & ? & ? & ?).
      exists p, x. split; [apply elem_of_app; by left|].
      split; [apply elem_of_app; by left|]. split; [done|]. by apply before_app.
  - intros i x [Hold|[= -> ->]%list_elem_of_singleton]%elem_of_app.
    + destruct (ei_dom _ _ _ Hinv _ _ Hold) as [?|[v Hv]]; [by left|]. right.
      destruct (decide (obj_id e = i)) as [<-|Hi].
      * by rewrite lookup_insert_eq.
      * rewrite lookup_insert_ne by done. by exists v.
    + right. by rewrite lookup_insert_eq.
Qed.

Lemma edges_inv_fold h root o es : ∀ st,
  (∀ s e, (s, e) ∈ es -> (s, e) ∈ get_edges h o) ->
  (obj_id o, o) ∈ seen st -> (obj_id root, root) ∈ seen st ->
  edges_inv h root st -> edges_inv h root (fold_left (visit o) es st).
Proof.
  induction es as [|[s e] es IH]; intros st Hes Ho Hroot Hinv; simpl; [done|].
  pose proof (grows_visit o st s e) as Hg.
  apply IH.
  - intros s' e' ?. apply Hes. by right.
  - by apply Hg.
  - by apply Hg.
  - apply edges_inv_visit; try done. apply Hes. by left.
Qed.

Lemma edges_inv_pop_and_visit h root st st' :
  inv h root st -> edges_inv h root st ->
  pop_and_visit h st = Some st' -> edges_inv h root st'.
Proof.
  intros Hinv Hei. unfold pop_and_visit.
  destruct (worklist st) as [|o wl] eqn:Hwl; [done|]. intros [= <-].
  apply edges_inv_fold; simpl.
  - done.
  - apply Hei. rewrite Hwl. by left.
  - apply Hinv.
  - split; simpl; try apply Hei.
    intros x Hx. apply Hei. rewrite Hwl. by right.
Qed.

Lemma edges_inv_init h root : edges_inv h root (init root).
Proof.
  split; simpl.
  - intros i x [= -> ->]%list_elem_of_singleton. apply reach_root.
  - intros o ->%list_elem_of_singleton. by left.
  - apply lookup_empty.
  - intros i pid s. by rewrite lookup_empty.
  - intros i x [= -> ->]%list_elem_of_singleton. by left.
Qed.

Lemma edges_inv_walk h root fuel : ∀ st,
  inv h root st -> edges_inv h root st -> edges_inv h root (walk fuel h st).
Proof.
  induction fuel as [|n IH]; intros st Hinv Hei; simpl; [done|].
  destruct (pop_and_visit h st) as [st'|] eqn:Hstep; [|done].
  apply IH; [by eapply inv_pop_and_visit | by eapply edges_inv_pop_and_visit].
Qed.

Lemma edges_inv_final h root :
  edges_inv h root (walk (S (length h)) h (init root)).
Proof. apply edges_inv_walk; [apply inv_init | apply edges_inv_init]. Qed.

(** X9. The Node map holds the graph rooted at a live [root] and nothing
    else: an object is a value of the map, under its own identity, exactly
    when a chain of edges leads from the root to it. *)
Theorem node_map_is_reachable_set h root x :
  deref h (obj_id root) = Some root ->
  (obj_id x, x) ∈ (get_reachable_graph h root).1 <-> reach h root x.
Proof.
  intros Hroot. split.
  - apply (ei_reach _ _ _ (edges_inv_final h root)).
  - by apply reach_seen.
Qed.

Lemma node_map_is_reachable_set_witness :
  (3, MoreGraphs.shared_class)
    ∈ (get_reachable_graph MoreGraphs.shared_heap MoreGraphs.shared_root).1
  <-> reach MoreGraphs.shared_heap MoreGraphs.shared_root MoreGraphs.shared_class.
Proof.
  apply (node_map_is_reachable_set MoreGraphs.shared_heap MoreGraphs.shared_root
           MoreGraphs.shared_class).
  reflexivity.
Defined.

(** X10. The Edge map records one edge for every Node but the root, and
    only real edges: the root has no entry; an identity has an entry
    exactly when it is a key of the Node map other than the root's; and an
    entry (parent identity, label) names a Node of the map that has an edge
    with that label to the Node of the entry. *)
Theorem edge_map_wellformed h root :
  let nodes := (get_reachable_graph h root).1 in
  let edges := (get_reachable_graph h root).2 in
  edges !! obj_id root = None
  ∧ (∀ i, is_Some (edges !! i) <-> i ∈ Dict.keys nodes ∧ i ≠ obj_id root)
  ∧ (∀ i pid s, edges !! i = Some (pid, s) ->
       ∃ p e, Dict.get nodes pid = Some p ∧ Dict.get nodes i = Some e
              ∧ (s, e) ∈ get_edges h p).
Proof.
  intros nodes edges.
  pose proof (inv_final h root) as Hinv. pose proof (edges_inv_final h root) as Hei.
  split; [apply Hei|]. split.
  - intros i. split.
    + intros [[pid s] Hp].
      destruct (ei_parent _ _ _ Hei _ _ _ Hp) as (p & e & _ & He & _). split.
      * apply list_elem_of_fmap. by exists (i, e).
      * intros ->. assert (edges !! obj_id root = None) as Hr by apply Hei.
        congruence.
    + intros [[[i' x] [-> Hx]]%list_elem_of_fmap Hne].
      by destruct (ei_dom _ _ _ Hei _ _ Hx).
  - intros i pid s Hp.
    destruct (ei_parent _ _ _ Hei _ _ _ Hp) as (p & e & ? & ? & ? & _).
    exists p, e. pose proof (inv_nodup _ _ _ Hinv).
    split; [by apply get_elem|]. split; [by apply get_elem|done].
Qed.

Lemma path_up_climbs h root st :
  inv h root st -> edges_inv h root st ->
  ∀ n x fuel,
    Dict.keys (seen st) !! n = Some (obj_id x) -> (obj_id x, x) ∈ seen st ->
    (n < fuel)%nat ->
    climbs h root x (path_up fuel x (seen st) (parents st)).
Proof.
  intros Hinv Hei n. induction n as [n IH] using lt_wf_ind.
  intros x fuel Hn Hx Hfuel. destruct fuel as [|fuel]; [lia|].
  pose proof (inv_nodup _ _ _ Hinv) as Hnd. cbn [path_up].
  destruct (ei_dom _ _ _ Hei _ _ Hx) as [Hroot|[[pid s] Hp]].
  - rewrite Hroot, (ei_root _ _ _ Hei).
    assert (x = root) as ->; [|constructor].
    pose proof (get_elem _ _ _ Hnd Hx) as H1.
    pose proof (get_elem _ _ _ Hnd (inv_root _ _ _ Hinv)) as H2.
    rewrite Hroot in H1. congruence.
  - rewrite Hp.
    destruct (ei_parent _ _ _ Hei _ _ _ Hp)
      as (p & e & Hpin & He & Hedge & n1 & n2 & Hn1 & Hn2 & Hlt).
    assert (e = x) as ->.
    { pose proof (get_elem _ _ _ Hnd Hx). pose proof (get_elem _ _ _ Hnd He).
      congruence. }
    rewrite (get_elem _ _ _ Hnd Hpin).
    assert (n2 = n) as -> by (by eapply NoDup_lookup).
    apply climbs_step; [done|].
    pose proof (inv_ids _ _ _ Hinv _ _ Hpin) as Hpid.
    apply (IH n1); [lia | by rewrite Hpid | by rewrite Hpid | lia].
Qed.

Lemma climbs_leads_to h root x l : climbs h root x l -> leads_to h root (rev l) x.
Proof.
  induction 1 as [|x s p l Hedge _ IH]; simpl; [constructor|].
  by eapply leads_snoc.
Qed.

Lemma get_path_leads h root x :
  (obj_id x, x) ∈ (get_reachable_graph h root).1 ->
  leads_to h root
    (get_path x (get_reachable_graph h root).1 (get_reachable_graph h root).2) x.
Proof.
  intros Hx.
  pose proof (inv_final h root) as Hinv. pose proof (edges_inv_final h root) as Hei.
  unfold get_path. apply climbs_leads_to.
  assert (obj_id x ∈ Dict.keys (get_reachable_graph h root).1)
    as [n Hn]%list_elem_of_lookup.
  { apply list_elem_of_fmap. by exists (obj_id x, x). }
  apply (path_up_climbs h root _ Hinv Hei n); [done..|].
  apply lookup_lt_Some in Hn. unfold Dict.keys in Hn.
  by rewrite length_fmap in Hn.
Qed.

(** X11. Path reconstruction: for every Node of the map, [get_path] returns
    a path that starts at the root and follows real edges down to the Node,
    one step (label, object the edge leaves) per edge, within the bound on
    steps; the path of the root is empty. *)
Theorem reconstructed_path_leads_to_node h root x :
  let nodes := (get_reachable_graph h root).1 in
  let edges := (get_reachable_graph h root).2 in
  (obj_id x, x) ∈ nodes ->
  leads_to h root (get_path x nodes edges) x
  ∧ get_path root nodes edges = [].
Proof.
  intros nodes edges Hx. split; [by apply get_path_leads|].
  unfold get_path.
  destruct (length nodes) as [|k]; [done|]. cbn [path_up].
  assert (edges !! obj_id root = None) as -> by apply (edges_inv_final h root).
  done.
Qed.

Lemma reconstructed_path_leads_to_node_witness :
  let nodes := (get_reachable_graph MoreGraphs.shared_heap MoreGraphs.shared_root).1 in
  let edges := (get_reachable_graph MoreGraphs.shared_heap MoreGraphs.shared_root).2 in
  leads_to MoreGraphs.shared_heap MoreGraphs.shared_root
    (get_path MoreGraphs.shared_class nodes edges) MoreGraphs.shared_class
  ∧ get_path MoreGraphs.shared_root nodes edges = [].
Proof.
  apply (reconstructed_path_leads_to_node MoreGraphs.shared_heap
           MoreGraphs.shared_root MoreGraphs.shared_class).
  vm_compute. do 2 right. left.
Defined.

Example shared_class_path :
  Mergecheck.path_to_str
    (get_path MoreGraphs.shared_class
       (get_reachable_graph MoreGraphs.shared_heap MoreGraphs.shared_root).1
       (get_reachable_graph MoreGraphs.shared_heap MoreGraphs.shared_root).2)
  = "<root>.defs(MypyFile)".
Proof. reflexivity. Qed.

End ObjgraphMore.

(** ** Reports and real paths *)

Module ReportMore.
Import Objgraph Mergecheck Design Reports Invariants.
Import ObjgraphFacts MergecheckFacts MergecheckMore ObjgraphMore.

Lemma symbol_node_in_map h root e :
  e ∈ symbol_nodes h root -> (obj_id e, e) ∈ (get_reachable_graph h root).1.
Proof.
  intros [Hin _]%symbol_nodes_elem. unfold reachable, Dict.values in Hin.
  apply list_elem_of_fmap in Hin as [[i x] [-> Hx]]. simpl.
  by rewrite (inv_ids _ _ _ (inv_final h root) _ _ Hx).
Qed.

(** X12. A report is about two different objects and shows real paths:
    when the check raises after printing, what it printed is the report of
    two reachable SymbolNodes of different identity, and the path rendered
    on each of the two lines leads from the root to the entity of that line
    along real edges. *)
Theorem report_shows_two_real_paths h root out out' :
  check_consistency h root out = (Raised AssertionError, out') ->
  out' ≠ out ->
  let nodes := (get_reachable_graph h root).1 in
  let edges := (get_reachable_graph h root).2 in
  ∃ sym first fn,
    sym ∈ symbol_nodes h root ∧ first ∈ symbol_nodes h root
    ∧ obj_id sym ≠ obj_id first
    ∧ leads_to h root (get_path sym nodes edges) sym
    ∧ leads_to h root (get_path first nodes edges) first
    ∧ out' = out ++ report nodes edges sym first fn.
Proof.
  intros Hrun%check_consistency_raised_inv Hprinted nodes edges.
  destruct (raised_stops _ _ _ _ _ Hrun)
    as (pre & sym & post & m & printed & Hsyms & _ & [_ Hwhy] & ->).
  destruct Hwhy as [[_ ->]|(fn & e1 & _ & _ & _ & Hin & _ & _ & _ & _ & ->)].
  { by rewrite app_nil_r in Hprinted. }
  assert (sym ∈ symbol_nodes h root) as Hsym.
  { rewrite Hsyms. apply elem_of_app. right. by left. }
  assert (e1 ∈ symbol_nodes h root) as He1.
  { rewrite Hsyms. apply elem_of_app. by left. }
  exists sym, e1, fn. split; [done|]. split; [done|]. split.
  { pose proof (symbol_nodes_NoDup h root) as Hnd. rewrite Hsyms in Hnd.
    intros Heq. by apply (split_ids_differ _ _ _ _ Hnd Hin). }
  split; [by apply get_path_leads, symbol_node_in_map|].
  split; [by apply get_path_leads, symbol_node_in_map|done].
Qed.

Lemma report_shows_two_real_paths_witness :
  let nodes := (get_reachable_graph Graphs.dup_heap Graphs.dup_root).1 in
  let edges := (get_reachable_graph Graphs.dup_heap Graphs.dup_root).2 in
  ∃ sym first fn,
    sym ∈ symbol_nodes Graphs.dup_heap Graphs.dup_root
    ∧ first ∈ symbol_nodes Graphs.dup_heap Graphs.dup_root
    ∧ obj_id sym ≠ obj_id first
    ∧ leads_to Graphs.dup_heap Graphs.dup_root (get_path sym nodes edges) sym
    ∧ leads_to Graphs.dup_heap Graphs.dup_root (get_path first nodes edges) first
    ∧ [String Py.newline "Duplicate 'TypeInfo' nodes with fullname 'pkg.mod.Foo' found:";
       "[1] 4: <root>.modules['other']";
       "[2] 3: <root>.modules['pkg']"]
      = [] ++ report nodes edges sym first fn.
Proof.
  apply (report_shows_two_real_paths Graphs.dup_heap Graphs.dup_root []).
  - reflexivity.
  - discriminate.
Defined.

End ReportMore.
